(** * steam-bulk-uninstaller: the VDF parser, the catalog builder and the
      deletion engine, embedded from [steam_uninstaller/steam.py] and
      [steam_uninstaller/uninstaller.py].

    Conventions of the embedding.
    - Python [str] is [string]; comparison is the lexicographic order on
      character codes, [str.lower] is the ASCII lowering.
    - Python [int] is [Z].
    - A Python [dict] is an insertion-ordered association list with unique
      keys: assigning to an existing key replaces the value in place, assigning
      to a new key appends.
    - The dictionaries [parse_vdf] builds are shared mutable objects; they live
      in a heap of objects addressed by allocation order.
    - [pathlib.Path] is the list of its components; the file system is a
      finite map from paths to nodes.
    - A Python exception that can leave a function is an explicit error
      result.
    - Logging, the progress callback and the formatting of sizes and play
      times are left out. *)

From Stdlib Require Import ZArith Ascii Sorted.
From stdpp Require Import base option list strings gmap fin_maps.

Local Open Scope Z_scope.

(** ** Python values read from a descriptor *)

(** A parsed descriptor is a tree: a leaf string or a mapping. *)
#[local] Unset Elimination Schemes.
Inductive value :=
  | VStr (s : string)
  | VDict (d : list (string * value)).
#[local] Set Elimination Schemes.

Abbreviation dict := (list (string * value)).

Section value_induction.
Variable P : value → Prop.
Hypothesis Hstr : ∀ s, P (VStr s).
Hypothesis Hdict : ∀ d, Forall (λ kv, P kv.2) d → P (VDict d).

Fixpoint value_ind_nested (v : value) : P v :=
  match v with
  | VStr s => Hstr s
  | VDict d =>
      Hdict d
        ((fix go (l : dict) : Forall (λ kv, P kv.2) l :=
            match l with
            | [] => List.Forall_nil _
            | kv :: l' => List.Forall_cons _ _ _ (value_ind_nested kv.2) (go l')
            end) d)
  end.
End value_induction.

(** [d[k] = v] on an insertion-ordered dictionary. *)
Fixpoint dict_set {V} (k : string) (v : V) (d : list (string * V))
    : list (string * V) :=
  match d with
  | [] => [(k, v)]
  | (k', v') :: d' =>
      if decide (k' = k) then (k, v) :: d' else (k', v') :: dict_set k v d'
  end.

(** [d.get(k)], [None] when the key is absent. *)
Fixpoint dict_get {V} (k : string) (d : list (string * V)) : option V :=
  match d with
  | [] => None
  | (k', v') :: d' => if decide (k' = k) then Some v' else dict_get k d'
  end.

(** ** [parse_vdf]: the tokens *)

Definition dquote : ascii := "034"%char.

(** One match of [token_pattern]: a brace or a quoted string, of which
    [match.group(1)] is kept. *)
Inductive token :=
  | TOpen
  | TClose
  | TQuoted (s : string).

(** [token_pattern.finditer(content)]: the leftmost non-overlapping matches of
    the pattern, which is a double quote, any run of characters other than a
    double quote, and a double quote; or an opening brace; or a closing brace.
    A double quote with no double quote after it matches nothing there, and
    the scan resumes at the next character. *)
Fixpoint finditer (s : string) : list token :=
  match s with
  | EmptyString => []
  | String c s' =>
      if decide (c = "{"%char) then TOpen :: finditer s'
      else if decide (c = "}"%char) then TClose :: finditer s'
      else if decide (c = dquote) then
        match quoted_body s' with
        | Some (body, ts) => TQuoted body :: ts
        | None => finditer s'
        end
      else finditer s'
  end
with quoted_body (s : string) : option (string * list token) :=
  match s with
  | EmptyString => None
  | String c s' =>
      if decide (c = dquote) then Some (EmptyString, finditer s')
      else '(body, ts) ← quoted_body s'; Some (String c body, ts)
  end.

(** ** [parse_vdf]: the object heap *)

(** A dictionary object holds strings and references to other objects. *)
Inductive cell :=
  | CStr (s : string)
  | CRef (a : nat).

Abbreviation obj := (list (string * cell)).

(** The parser state: the allocated dictionaries (address = position),
    [stack] with its last element first, and [current_key]. *)
Record pstate := PState {
  heap : list obj;
  stack : list nat;
  current_key : option string;
}.

(** [result = {}; stack = [result]; current_key = None] *)
Definition pinit : pstate :=
  {| heap := [[]]; stack := [0%nat]; current_key := None |}.

(** [obj_at_a[k] = c]; fails on a dangling address. *)
Definition store (a : nat) (k : string) (c : cell) (h : list obj)
    : option (list obj) :=
  o ← h !! a; Some (<[a := dict_set k c o]> h).

(** The body of the [for match in ...] loop. [None] stands for an
    [IndexError] on [stack[-1]] or a dangling reference. *)
Definition step (st : pstate) (t : token) : option pstate :=
  match t with
  | TOpen =>
      match current_key st with
      | Some k =>
          let new_dict := length (heap st) in
          top ← head (stack st);
          h ← store top k (CRef new_dict) (heap st ++ [[]]);
          Some {| heap := h; stack := new_dict :: stack st;
                  current_key := None |}
      | None => Some st
      end
  | TClose =>
      if decide (1 < length (stack st))%nat
      then Some {| heap := heap st; stack := tail (stack st);
                   current_key := current_key st |}
      else Some st
  | TQuoted v =>
      match current_key st with
      | None => Some {| heap := heap st; stack := stack st;
                        current_key := Some v |}
      | Some k =>
          top ← head (stack st);
          h ← store top k (CStr v) (heap st);
          Some {| heap := h; stack := stack st; current_key := None |}
      end
  end.

Fixpoint run (st : pstate) (ts : list token) : option pstate :=
  match ts with
  | [] => Some st
  | t :: ts' => st' ← step st t; run st' ts'
  end.

(** The tree a dictionary object denotes, following references. *)
Definition reify_cell (deref : nat → option dict) (kc : string * cell)
    : option (string * value) :=
  match kc.2 with
  | CStr s => Some (kc.1, VStr s)
  | CRef b => d ← deref b; Some (kc.1, VDict d)
  end.

Fixpoint reify (fuel : nat) (h : list obj) (a : nat) : option dict :=
  match fuel with
  | O => None
  | S n => o ← h !! a; mapM (reify_cell (reify n h)) o
  end.

(** [parse_vdf(content)]: the value of [result] when the loop ends. *)
Definition parse_tokens (ts : list token) : option dict :=
  st ← run pinit ts; reify (length (heap st)) (heap st) 0.

Definition parse_vdf (content : string) : option dict :=
  parse_tokens (finditer content).

(** A quoted string as it appears in a descriptor. *)
Definition quoted (s : string) : string :=
  String dquote (s +:+ String dquote EmptyString).
Global Arguments quoted : simpl never.

(** ** [parse_vdf] without the heap

    The dictionaries on [stack] form a path from [result] to the innermost
    open dictionary, so the loop can also be read as a walk with a zipper:
    the dictionary being filled, and for each enclosing dictionary its
    contents and the key under which the next one is stored. *)
Record zstate := ZState {
  zcur : dict;
  zframes : list (dict * string);
  zkey : option string;
}.

Definition zinit : zstate := {| zcur := []; zframes := []; zkey := None |}.

Definition zstep (z : zstate) (t : token) : zstate :=
  match t with
  | TOpen =>
      match zkey z with
      | Some k => {| zcur := []; zframes := (zcur z, k) :: zframes z;
                     zkey := None |}
      | None => z
      end
  | TClose =>
      match zframes z with
      | (parent, k) :: fs =>
          {| zcur := dict_set k (VDict (zcur z)) parent; zframes := fs;
             zkey := zkey z |}
      | [] => z
      end
  | TQuoted v =>
      match zkey z with
      | None => {| zcur := zcur z; zframes := zframes z; zkey := Some v |}
      | Some k => {| zcur := dict_set k (VStr v) (zcur z);
                     zframes := zframes z; zkey := None |}
      end
  end.

Definition zrun (z : zstate) (ts : list token) : zstate := foldl zstep z ts.

(** The contents of [result]: every open dictionary sits in its parent. *)
Fixpoint zclose (cur : dict) (frames : list (dict * string)) : dict :=
  match frames with
  | [] => cur
  | (parent, k) :: fs => zclose (dict_set k (VDict cur) parent) fs
  end.

Definition zresult (z : zstate) : dict := zclose (zcur z) (zframes z).

(** ** The heap and the tree it denotes *)

(** [denotes h lim lo v c]: in heap [h] the cell [c] denotes the tree [v],
    and every object reached on the way has its address strictly between
    [lo] and [lim]. References always point to younger objects. *)
Fixpoint denotes (h : list obj) (lim lo : nat) (v : value) (c : cell)
    {struct v} : Prop :=
  match v, c with
  | VStr s, CStr s' => s = s'
  | VDict d, CRef b =>
      (lo < b < lim)%nat ∧
      match h !! b with
      | Some o =>
          (fix go (d : dict) (o : obj) {struct d} : Prop :=
             match d, o with
             | [], [] => True
             | (k, v) :: d', (k', c) :: o' =>
                 k = k' ∧ denotes h lim b v c ∧ go d' o'
             | _, _ => False
             end) d o
      | None => False
      end
  | _, _ => False
  end.

(** The object [o], stored at address [a], denotes the dictionary [d]. *)
Definition objrep (h : list obj) (lim a : nat) (d : dict) (o : obj) : Prop :=
  Forall2 (λ kv kc, kv.1 = kc.1 ∧ denotes h lim a kv.2 kc.2) d o.

(** The objects of [stack] below the top, against the zipper frames: each
    holds a reference to the next one up at the frame's key, and otherwise
    objects that were completed before that one was allocated. *)
Fixpoint frames_rep (h : list obj) (child : nat) (stk : list nat)
    (frames : list (dict * string)) : Prop :=
  match stk, frames with
  | [], [] => child = 0%nat
  | a :: stk', (parent, k) :: fs =>
      (a < child)%nat ∧
      (∃ o, h !! a = Some (dict_set k (CRef child) o) ∧
            objrep h child a parent o) ∧
      frames_rep h a stk' fs
  | _, _ => False
  end.

(** The simulation invariant between the heap state and the zipper. *)
Definition sim (st : pstate) (z : zstate) : Prop :=
  current_key st = zkey z ∧
  ∃ a stk o,
    stack st = a :: stk ∧ (a < length (heap st))%nat ∧
    heap st !! a = Some o ∧
    objrep (heap st) (length (heap st)) a (zcur z) o ∧
    frames_rep (heap st) a stk (zframes z).

(** ** Observations on a run of [parse_vdf] *)

(** Whether a text ends inside a quoted string: the parity of its double
    quotes. *)
Fixpoint open_quote (s : string) : bool :=
  match s with
  | EmptyString => false
  | String c s' =>
      if decide (c = dquote) then negb (open_quote s') else open_quote s'
  end.

Fixpoint quote_free (s : string) : bool :=
  match s with
  | EmptyString => true
  | String c s' => if decide (c = dquote) then false else quote_free s'
  end.

(** [len(stack)] and [current_key] after the loop has consumed [ts]. *)
Definition open_scopes (ts : list token) : option nat :=
  st ← run pinit ts; Some (length (stack st)).

Definition pending_key (ts : list token) : option (option string) :=
  st ← run pinit ts; Some (current_key st).

(** ** The nested key-value grammar

    A well-formed descriptor is a sequence of entries; an entry is a key
    with a string value, or a key with a brace-enclosed sequence of
    entries. *)
#[local] Unset Elimination Schemes.
Inductive entry :=
  | Pair (k v : string)
  | Block (k : string) (body : list entry).
#[local] Set Elimination Schemes.

Section entry_induction.
Variable P : entry → Prop.
Hypothesis Hpair : ∀ k v, P (Pair k v).
Hypothesis Hblock : ∀ k body, Forall P body → P (Block k body).

Fixpoint entry_ind_nested (e : entry) : P e :=
  match e with
  | Pair k v => Hpair k v
  | Block k body =>
      Hblock k body
        ((fix go (l : list entry) : Forall P l :=
            match l with
            | [] => List.Forall_nil _
            | e' :: l' => List.Forall_cons _ _ _ (entry_ind_nested e') (go l')
            end) body)
  end.
End entry_induction.

(** The tokens of a well-formed descriptor. *)
Fixpoint entry_tokens (e : entry) : list token :=
  match e with
  | Pair k v => [TQuoted k; TQuoted v]
  | Block k body =>
      TQuoted k :: TOpen :: flat_map entry_tokens body ++ [TClose]
  end.

Definition doc_tokens (doc : list entry) : list token :=
  flat_map entry_tokens doc.

(** The mapping a well-formed descriptor stands for, in the words of the
    specification: pairs bind a key to a string in the scope they appear in,
    a block binds its key to the mapping of its body, and a later binding
    of a key replaces an earlier one in the same scope. *)
Fixpoint entry_binding (e : entry) : string * value :=
  match e with
  | Pair k v => (k, VStr v)
  | Block k body =>
      (k, VDict (foldl (λ acc e', dict_set (entry_binding e').1
                                    (entry_binding e').2 acc) [] body))
  end.

Definition bind_entry (acc : dict) (e : entry) : dict :=
  dict_set (entry_binding e).1 (entry_binding e).2 acc.

Definition doc_dict (doc : list entry) : dict := foldl bind_entry [] doc.

(** A tree whose mappings have no repeated key, at any depth. *)
Fixpoint is_mapping (v : value) : Prop :=
  match v with
  | VStr _ => True
  | VDict d =>
      NoDup d.*1 ∧
      (fix go (l : dict) : Prop :=
         match l with
         | [] => True
         | (_, v') :: l' => is_mapping v' ∧ go l'
         end) d
  end.

(** A descriptor none of whose strings holds a double quote. *)
Fixpoint entry_quote_free (e : entry) : bool :=
  match e with
  | Pair k v => quote_free k && quote_free v
  | Block k body => quote_free k && forallb entry_quote_free body
  end.

(** The text of a descriptor, with single spaces between its tokens. *)
Fixpoint entry_text (e : entry) : string :=
  match e with
  | Pair k v => quoted k +:+ " " +:+ quoted v +:+ " "
  | Block k body =>
      quoted k +:+ " { " +:+ foldr (λ e' s, entry_text e' +:+ s) "} " body
  end.

Definition doc_text (doc : list entry) : string :=
  foldr (λ e s, entry_text e +:+ s) "" doc.

(** ** Paths

    A path is the list of its parts, as [pathlib] keeps them: an absolute
    path starts with the part [/]. Empty parts and [.] parts vanish when a
    path is built; [..] parts are kept as they are. *)
Abbreviation Path := (list string).

(** [s.split('/')] *)
Fixpoint segments (s : string) : list string :=
  match s with
  | EmptyString => [EmptyString]
  | String c s' =>
      if decide (c = "/"%char) then EmptyString :: segments s'
      else match segments s' with
           | seg :: rest => String c seg :: rest
           | [] => [String c EmptyString]
           end
  end.

Definition path_parts (s : string) : list string :=
  filter (λ seg, seg ≠ EmptyString ∧ seg ≠ ".") (segments s).

Definition is_absolute (s : string) : bool :=
  match s with
  | String c _ => bool_decide (c = "/"%char)
  | EmptyString => false
  end.

(** [Path(s)] *)
Definition mkpath (s : string) : Path :=
  if is_absolute s then "/" :: path_parts s else path_parts s.

(** [p / s]: an absolute right operand replaces the left one. *)
Definition joinpath (p : Path) (s : string) : Path :=
  if is_absolute s then mkpath s else p ++ path_parts s.

Infix "</>" := joinpath (at level 40, left associativity).

(** ** Exceptions

    The three classes [uninstall_game] tells apart: [PermissionError], any
    other [OSError], and any other [Exception]. The argument is [str(e)]. *)
Inductive exn :=
  | PermissionError (msg : string)
  | OSError (msg : string)
  | OtherError (msg : string).

(** ** The file system

    A finite map from paths to nodes. A node records, besides its kind, the
    error each operation on it raises, if any: permissions and other
    conditions of the environment are not modelled further. Symbolic links
    are not modelled; [exists], [is_file] and [is_dir] do not raise. *)
Inductive kind :=
  | File (content : string) (st_size : Z)
  | Dir.

Record node := Node {
  node_kind : kind;
  stat_error : option exn;
  remove_error : option exn;
  read_error : option exn;
}.

Abbreviation filesystem := (gmap Path node).

Definition plain_file (content : string) (size : Z) : node :=
  {| node_kind := File content size; stat_error := None;
     remove_error := None; read_error := None |}.

Definition plain_dir : node :=
  {| node_kind := Dir; stat_error := None; remove_error := None;
     read_error := None |}.

(** [path.exists()] *)
Definition path_exists (fs : filesystem) (p : Path) : bool :=
  bool_decide (is_Some (fs !! p)).

(** [path.is_file()] *)
Definition is_file (fs : filesystem) (p : Path) : bool :=
  match fs !! p with
  | Some {| node_kind := File _ _ |} => true
  | _ => false
  end.

(** [path.is_dir()] *)
Definition is_dir (fs : filesystem) (p : Path) : bool :=
  match fs !! p with
  | Some {| node_kind := Dir |} => true
  | _ => false
  end.

(** [path.stat().st_size] *)
Definition stat_size (fs : filesystem) (p : Path) : exn + Z :=
  match fs !! p with
  | None => inl (OSError "No such file or directory")
  | Some n =>
      match stat_error n with
      | Some e => inl e
      | None =>
          match node_kind n with
          | File _ size => inr size
          | Dir => inr 0
          end
      end
  end.

(** [path.read_text()] *)
Definition read_text (fs : filesystem) (p : Path) : exn + string :=
  match fs !! p with
  | None => inl (OSError "No such file or directory")
  | Some n =>
      match read_error n with
      | Some e => inl e
      | None =>
          match node_kind n with
          | File content _ => inr content
          | Dir => inl (OSError "Is a directory")
          end
      end
  end.

(** The entries at or below [p], and those strictly below it. *)
Definition subtree (fs : filesystem) (p : Path) : filesystem :=
  filter (λ qn, p `prefix_of` qn.1) fs.

Definition descendants (fs : filesystem) (p : Path) : filesystem :=
  filter (λ qn, p `prefix_of` qn.1 ∧ qn.1 ≠ p) fs.

(** The entries directly inside [p]: [p.iterdir()]. *)
Definition children (fs : filesystem) (p : Path) : list (Path * node) :=
  map_to_list
    (filter (λ qn, p `prefix_of` qn.1 ∧ length qn.1 = S (length p)) fs).

(** What one entry adds to [total] in [get_dir_size]: its size when it is a
    file whose [stat] succeeds. *)
Definition entry_size (n : node) : Z :=
  match node_kind n, stat_error n with
  | File _ size, None => size
  | _, _ => 0
  end.

Definition sum_sizes (l : list (Path * node)) : Z :=
  foldr (λ qn acc, entry_size qn.2 + acc) 0 l.

(** [get_dir_size(path)]; [path.rglob] yields what lies strictly below
    [path]. Scanning a directory is taken to succeed. *)
Definition get_dir_size (fs : filesystem) (path : Path) : Z :=
  if negb (path_exists fs path) then 0
  else sum_sizes (map_to_list (descendants fs path)).

(** [path.unlink()] *)
Definition unlink (fs : filesystem) (p : Path) : filesystem * option exn :=
  match fs !! p with
  | None => (fs, Some (OSError "No such file or directory"))
  | Some n =>
      match remove_error n with
      | Some e => (fs, Some e)
      | None =>
          match node_kind n with
          | File _ _ => (delete p fs, None)
          | Dir => (fs, Some (OSError "Is a directory"))
          end
      end
  end.

(** [shutil.rmtree(path)] removes entries one after the other and stops at
    the first one that cannot be removed; what was removed before stays
    removed. *)
Fixpoint remove_entries (l : list (Path * node)) (fs : filesystem)
    : filesystem * option exn :=
  match l with
  | [] => (fs, None)
  | (q, n) :: l' =>
      match remove_error n with
      | Some e => (fs, Some e)
      | None => remove_entries l' (delete q fs)
      end
  end.

Definition rmtree (fs : filesystem) (p : Path) : filesystem * option exn :=
  match fs !! p with
  | None => (fs, Some (OSError "No such file or directory"))
  | Some n => remove_entries (map_to_list (descendants fs p) ++ [(p, n)]) fs
  end.

(** ** [SteamGame]

    The dataclass does not check its field types: [name] holds whatever the
    descriptor binds to the key, a string or a mapping. *)
Record SteamGame := {
  appid : string;
  name : value;
  install_dir : string;
  size_on_disk : Z;
  library_path : Path;
  has_compatdata : bool;
  has_shadercache : bool;
  playtime_minutes : Z;
}.

Definition manifest_path (g : SteamGame) : Path :=
  library_path g </> "steamapps" </> ("appmanifest_" +:+ appid g +:+ ".acf").

Definition game_path (g : SteamGame) : Path :=
  library_path g </> "steamapps" </> "common" </> install_dir g.

Definition compatdata_path (g : SteamGame) : Path :=
  library_path g </> "steamapps" </> "compatdata" </> appid g.

Definition shadercache_path (g : SteamGame) : Path :=
  library_path g </> "steamapps" </> "shadercache" </> appid g.

(** ** The deletion engine *)

Record UninstallResult := {
  game : SteamGame;
  success : bool;
  error : option string;
  bytes_freed : Z;
}.

Record UninstallSummary := {
  total_games : Z;
  successful : Z;
  failed : Z;
  total_bytes_freed : Z;
  results : list UninstallResult;
}.

(** [get_game_paths(game)] *)
Definition get_game_paths (fs : filesystem) (g : SteamGame)
    : list (Path * string) :=
  let paths := [] in
  let paths := paths ++ [(manifest_path g, "manifest")] in
  let paths :=
    if path_exists fs (game_path g)
    then paths ++ [(game_path g, "game files")] else paths in
  let paths :=
    if has_compatdata g && path_exists fs (compatdata_path g)
    then paths ++ [(compatdata_path g, "Proton data")] else paths in
  let paths :=
    if has_shadercache g && path_exists fs (shadercache_path g)
    then paths ++ [(shadercache_path g, "shader cache")] else paths in
  paths.

(** The size computed before deletion. *)
Definition measure (fs : filesystem) (path : Path) : exn + Z :=
  if is_file fs path then stat_size fs path else inr (get_dir_size fs path).

(** [path.unlink()] for a file, [shutil.rmtree(path)] otherwise. *)
Definition remove (fs : filesystem) (path : Path) : filesystem * option exn :=
  if is_file fs path then unlink fs path else rmtree fs path.

(** One iteration of the loop over [paths_to_delete]: the file system and
    [bytes_freed] afterwards, and the exception that left the loop, if any. *)
Definition delete_path (dry_run : bool) (fs : filesystem) (bytes_freed : Z)
    (path : Path) : filesystem * Z * option exn :=
  if negb (path_exists fs path) then (fs, bytes_freed, None)
  else
    match measure fs path with
    | inl e => (fs, bytes_freed, Some e)
    | inr size =>
        let '(fs', raised) :=
          if dry_run then (fs, None) else remove fs path in
        match raised with
        | Some e => (fs', bytes_freed, Some e)
        | None => (fs', bytes_freed + size, None)
        end
    end.

Fixpoint delete_paths (dry_run : bool) (fs : filesystem) (bytes_freed : Z)
    (paths : list (Path * string)) : filesystem * Z * option exn :=
  match paths with
  | [] => (fs, bytes_freed, None)
  | (path, _) :: rest =>
      match delete_path dry_run fs bytes_freed path with
      | (fs', bytes_freed', None) => delete_paths dry_run fs' bytes_freed' rest
      | raised => raised
      end
  end.

(** The [error] field each [except] clause builds. *)
Definition error_message (e : exn) : string :=
  match e with
  | PermissionError msg => "Permission denied: " +:+ msg
  | OSError msg => "OS error: " +:+ msg
  | OtherError msg => msg
  end.

(** [uninstall_game(game, dry_run)]; logging is left out. *)
Definition uninstall_game (fs : filesystem) (g : SteamGame) (dry_run : bool)
    : filesystem * UninstallResult :=
  let paths_to_delete := get_game_paths fs g in
  match delete_paths dry_run fs 0 paths_to_delete with
  | (fs', bytes, None) =>
      (fs', {| game := g; success := true; error := None;
               bytes_freed := bytes |})
  | (fs', bytes, Some e) =>
      (fs', {| game := g; success := false;
               error := Some (error_message e); bytes_freed := bytes |})
  end.

(** The loop of [uninstall_games]; the progress callback is left out. *)
Fixpoint uninstall_loop (dry_run : bool) (fs : filesystem)
    (games : list SteamGame) (acc : list UninstallResult)
    : filesystem * list UninstallResult :=
  match games with
  | [] => (fs, acc)
  | g :: rest =>
      let '(fs', result) := uninstall_game fs g dry_run in
      uninstall_loop dry_run fs' rest (acc ++ [result])
  end.

(** [uninstall_games(games, dry_run)] *)
Definition uninstall_games (fs : filesystem) (games : list SteamGame)
    (dry_run : bool) : filesystem * UninstallSummary :=
  let '(fs', rs) := uninstall_loop dry_run fs games [] in
  let total := Z.of_nat (length games) in
  let ok := foldr (λ r n, if success r then 1 + n else n) 0 rs in
  (fs', {| total_games := total;
           successful := ok;
           failed := total - ok;
           total_bytes_freed := foldr (λ r n, bytes_freed r + n) 0 rs;
           results := rs |}).

(** ** Frames

    [removed_only P fs fs']: going from [fs] to [fs'] nothing was created or
    changed, and every entry that disappeared satisfies [P]. *)
Definition removed_only (P : Path → Prop) (fs fs' : filesystem) : Prop :=
  ∀ q, fs' !! q = fs !! q ∨ (fs' !! q = None ∧ P q).

(** The path [q] is [p] or lies below one of the paths of a plan. *)
Definition below (paths : list (Path * string)) (q : Path) : Prop :=
  ∃ p, p ∈ paths.*1 ∧ p `prefix_of` q.

(** ** String helpers of the catalog builder *)

(** [str.lower], on the letters A to Z. *)
Definition lower_ascii (c : ascii) : ascii :=
  let n := nat_of_ascii c in
  if (65 <=? n)%nat && (n <=? 90)%nat then ascii_of_nat (n + 32) else c.

Fixpoint lower (s : string) : string :=
  match s with
  | EmptyString => EmptyString
  | String c s' => String (lower_ascii c) (lower s')
  end.

(** [needle in hay] on strings. *)
Fixpoint contains (needle hay : string) : bool :=
  String.prefix needle hay ||
  match hay with
  | EmptyString => false
  | String _ hay' => contains needle hay'
  end.

Definition ends_with (suffix s : string) : bool :=
  String.prefix (String.rev suffix) (String.rev s).

Fixpoint lstrip (s : string) : string :=
  match s with
  | String c s' => if Ascii.is_space c then lstrip s' else s
  | EmptyString => s
  end.

Definition strip (s : string) : string :=
  String.rev (lstrip (String.rev (lstrip s))).

(** Decimal digits, single underscores allowed between two digits. *)
Fixpoint digits (s : string) (acc : Z) (after_digit : bool) : option Z :=
  match s with
  | EmptyString => if after_digit then Some acc else None
  | String c s' =>
      match Ascii.is_nat c with
      | Some d => digits s' (10 * acc + Z.of_nat d) true
      | None =>
          if after_digit && bool_decide (c = "_"%char)
          then digits s' acc false else None
      end
  end.

(** [int(s)] on a string; [None] is a [ValueError]. White space is the
    ASCII one. *)
Definition py_int (s : string) : option Z :=
  match strip s with
  | String "-" s' => Z.opp <$> digits s' 0 false
  | String "+" s' => digits s' 0 false
  | s' => digits s' 0 false
  end.

(** ** Dynamic typing *)

(** Sequencing of computations that may raise. *)
Definition try_bind {A B} (m : exn + A) (k : A → exn + B) : exn + B :=
  match m with
  | inl e => inl e
  | inr a => k a
  end.

Notation "x ←? m ; k" := (try_bind m (λ x, k))
  (at level 20, m at level 100, k at level 200, only parsing).

(** [bool(v)] *)
Definition truthy (v : value) : bool :=
  match v with
  | VStr EmptyString => false
  | VDict [] => false
  | _ => true
  end.

(** [v.get(k, default)]; a string has no [get]. *)
Definition value_get (v : value) (k : string) (dflt : value) : exn + value :=
  match v with
  | VDict d => inr (default dflt (dict_get k d))
  | VStr _ => inl (OtherError "'str' object has no attribute 'get'")
  end.

(** [v.items()]; a string has no [items]. *)
Definition value_items (v : value) : exn + dict :=
  match v with
  | VDict d => inr d
  | VStr _ => inl (OtherError "'str' object has no attribute 'items'")
  end.

(** [needle in v]: a substring test on a string, a key test on a mapping. *)
Definition value_contains (needle : string) (v : value) : bool :=
  match v with
  | VStr s => contains needle s
  | VDict d => bool_decide (is_Some (dict_get needle d))
  end.

(** [parse_vdf] as the callers see it. *)
Definition parsed (content : string) : exn + dict :=
  match parse_vdf content with
  | Some data => inr data
  | None => inl (OtherError "parse_vdf")
  end.

(** ** The catalog builder *)

(** [find_steam_root()], with [Path.home()] given. *)
Definition find_steam_root (home : Path) (fs : filesystem) : option Path :=
  let candidates :=
    [home </> ".local" </> "share" </> "Steam";
     home </> ".steam" </> "steam";
     home </> ".steam" </> "debian-installation"] in
  head (filter (λ path, path_exists fs path = true ∧
                        path_exists fs (path </> "steamapps") = true)
               candidates).

(** The loop of [get_library_folders] over [library_data.items()]. *)
Fixpoint library_loop (fs : filesystem) (items : dict) (libraries : list Path)
    : exn + list Path :=
  match items with
  | [] => inr libraries
  | (_, VDict d) :: rest =>
      match dict_get "path" d with
      | Some (VStr s) =>
          let lib_path := mkpath s in
          library_loop fs rest
            (if path_exists fs lib_path then libraries ++ [lib_path]
             else libraries)
      | Some (VDict _) =>
          inl (OtherError "expected str, bytes or os.PathLike object, not dict")
      | None => library_loop fs rest libraries
      end
  | (_, VStr _) :: rest => library_loop fs rest libraries
  end.

(** [get_library_folders(steam_root)] *)
Definition get_library_folders (fs : filesystem) (steam_root : Path)
    : exn + list Path :=
  let vdf_path := steam_root </> "steamapps" </> "libraryfolders.vdf" in
  if negb (path_exists fs vdf_path) then inr [steam_root]
  else
    content ←? read_text fs vdf_path;
    data ←? parsed content;
    library_data ←? value_get (VDict data) "libraryfolders" (VDict []);
    items ←? value_items library_data;
    libraries ←? library_loop fs items [];
    inr (if bool_decide (steam_root ∈ libraries) then libraries
         else steam_root :: libraries).

(** The library paths a parsed descriptor refers to, in the words of the
    specification: the [path] of every section of [libraryfolders]. *)
Definition section_path (v : value) : option Path :=
  match v with
  | VDict d =>
      match dict_get "path" d with
      | Some (VStr s) => Some (mkpath s)
      | _ => None
      end
  | VStr _ => None
  end.

Definition referenced_paths (data : dict) : list Path :=
  match dict_get "libraryfolders" data with
  | Some (VDict sections) => omap (λ kv, section_path kv.2) sections
  | _ => []
  end.

(** [playtime]: a dictionary from identifiers to minutes. *)
Abbreviation playtime_dict := (list (string * Z)).

(** The loop of [get_playtime_data] over [apps.items()]. A [Playtime] that
    is no number is skipped ([ValueError]); one that is a mapping raises a
    [TypeError], which ends the loop for this user and keeps what was
    recorded before. *)
Fixpoint playtime_apps (items : dict) (playtime : playtime_dict)
    : playtime_dict :=
  match items with
  | [] => playtime
  | (app, VDict d) :: rest =>
      match dict_get "Playtime" d with
      | Some (VStr s) =>
          match py_int s with
          | Some minutes =>
              playtime_apps rest
                (match dict_get app playtime with
                 | None => dict_set app minutes playtime
                 | Some recorded =>
                     if recorded <? minutes then dict_set app minutes playtime
                     else playtime
                 end)
          | None => playtime_apps rest playtime
          end
      | Some (VDict _) => playtime
      | None => playtime_apps rest playtime
      end
  | (_, VStr _) :: rest => playtime_apps rest playtime
  end.

(** The items of [apps] in one user's [localconfig.vdf]. *)
Definition user_apps (fs : filesystem) (config_file : Path) : exn + dict :=
  content ←? read_text fs config_file;
  data ←? parsed content;
  store ←? value_get (VDict data) "UserLocalConfigStore" (VDict []);
  software ←? value_get store "Software" (VDict []);
  valve ←? value_get software "Valve" (VDict []);
  steam ←? value_get valve "Steam" (VDict []);
  apps ←? value_get steam "apps" (VDict []);
  value_items apps.

(** One iteration of the loop over [userdata_path.iterdir()]. *)
Definition playtime_user (fs : filesystem) (playtime : playtime_dict)
    (user_dir : Path) : playtime_dict :=
  if negb (is_dir fs user_dir) then playtime
  else
    let config_file := user_dir </> "config" </> "localconfig.vdf" in
    if negb (path_exists fs config_file) then playtime
    else
      match user_apps fs config_file with
      | inl _ => playtime
      | inr items => playtime_apps items playtime
      end.

(** [get_playtime_data(steam_root)] *)
Definition get_playtime_data (fs : filesystem) (steam_root : Path)
    : exn + playtime_dict :=
  let userdata_path := steam_root </> "userdata" in
  if negb (path_exists fs userdata_path) then inr []
  else if negb (is_dir fs userdata_path) then inl (OSError "Not a directory")
  else inr (foldl (playtime_user fs) [] (children fs userdata_path).*1).

(** [fnmatch(name, 'appmanifest_*.acf')] *)
Definition is_manifest_name (file_name : string) : bool :=
  String.prefix "appmanifest_" file_name && ends_with ".acf" file_name.

(** [steamapps.glob('appmanifest_*.acf')] *)
Definition glob_manifests (fs : filesystem) (steamapps : Path) : list Path :=
  filter (λ p, is_manifest_name (default EmptyString (last p)) = true)
         (children fs steamapps).*1.

(** The body of the [try] in [get_installed_games]: the game appended to
    [games], or [None] when the descriptor is skipped, by a [continue] or by
    an exception. *)
Definition read_manifest (fs : filesystem) (library : Path)
    (playtime_data : option playtime_dict) (manifest : Path)
    : option SteamGame :=
  let steamapps := library </> "steamapps" in
  match content ←? read_text fs manifest; parsed content with
  | inl _ => None
  | inr data =>
      let app_state := default (VDict []) (dict_get "AppState" data) in
      if negb (truthy app_state) then None
      else
        match app_state with
        | VStr _ => None
        | VDict st =>
            let appid_v := default (VStr "") (dict_get "appid" st) in
            let name_v := default (VStr "Unknown") (dict_get "name" st) in
            let install_dir_v :=
              default (VStr "") (dict_get "installdir" st) in
            let size_str := default (VStr "0") (dict_get "SizeOnDisk" st) in
            if value_contains "Runtime" name_v
               || value_contains "Proton" name_v then None
            else
              match size_str, appid_v, install_dir_v with
              | VStr size, VStr app, VStr dir =>
                  let size_on_disk := default 0 (py_int size) in
                  let compatdata := steamapps </> "compatdata" </> app in
                  let shadercache := steamapps </> "shadercache" </> app in
                  let g :=
                    {| appid := app; name := name_v; install_dir := dir;
                       size_on_disk := size_on_disk;
                       library_path := library;
                       has_compatdata := path_exists fs compatdata;
                       has_shadercache := path_exists fs shadercache;
                       playtime_minutes :=
                         match playtime_data with
                         | Some ((_ :: _) as pt) => default 0 (dict_get app pt)
                         | _ => 0
                         end |} in
                  if path_exists fs (game_path g) then Some g else None
              | _, _, _ => None
              end
        end
  end.

(** The key [g.name.lower()]; a mapping has no [lower]. *)
Definition sort_key (g : SteamGame) : option string :=
  match name g with
  | VStr s => Some (lower s)
  | VDict _ => None
  end.

(** Stable insertion: before the first entry whose key is not smaller. *)
Fixpoint insert_by_key (kg : string * SteamGame)
    (l : list (string * SteamGame)) : list (string * SteamGame) :=
  match l with
  | [] => [kg]
  | kg' :: l' =>
      if String.leb kg.1 kg'.1 then kg :: l else kg' :: insert_by_key kg l'
  end.

(** [sorted(games, key=lambda g: g.name.lower())]: every key is computed
    first, then the list is sorted, keeping the order of equal keys. *)
Definition sorted_by_name (games : list SteamGame) : exn + list SteamGame :=
  match mapM (λ g, k ← sort_key g; Some (k, g)) games with
  | None => inl (OtherError "'dict' object has no attribute 'lower'")
  | Some keyed => inr (foldr insert_by_key [] keyed).*2
  end.

(** [get_installed_games(library_path, playtime_data)] *)
Definition get_installed_games (fs : filesystem) (library : Path)
    (playtime_data : option playtime_dict) : exn + list SteamGame :=
  let steamapps := library </> "steamapps" in
  if negb (path_exists fs steamapps) then inr []
  else
    let games :=
      foldl (λ games manifest,
               match read_manifest fs library playtime_data manifest with
               | Some g => games ++ [g]
               | None => games
               end) [] (glob_manifests fs steamapps) in
    sorted_by_name games.

(** The loop of [get_all_installed_games] over the libraries. *)
Fixpoint all_games_loop (fs : filesystem) (playtime_data : playtime_dict)
    (libraries : list Path) (all_games : list SteamGame)
    : exn + list SteamGame :=
  match libraries with
  | [] => inr all_games
  | library :: rest =>
      games ←? get_installed_games fs library (Some playtime_data);
      all_games_loop fs playtime_data rest (all_games ++ games)
  end.

(** [get_all_installed_games()] *)
Definition get_all_installed_games (home : Path) (fs : filesystem)
    : exn + list SteamGame :=
  match find_steam_root home fs with
  | None => inr []
  | Some steam_root =>
      libraries ←? get_library_folders fs steam_root;
      playtime_data ←? get_playtime_data fs steam_root;
      all_games ←? all_games_loop fs playtime_data libraries [];
      sorted_by_name all_games
  end.

(** ** Dry run against live run *)

(** Every path a plan of the package can hold. *)
Definition candidate_paths (g : SteamGame) : list Path :=
  [manifest_path g; game_path g; compatdata_path g; shadercache_path g].

(** Neither path is the other or lies below it. *)
Definition apart (p q : Path) : Prop :=
  ¬ p `prefix_of` q ∧ ¬ q `prefix_of` p.

(** No two paths of the list overlap. *)
Fixpoint separated (ps : list Path) : bool :=
  match ps with
  | [] => true
  | p :: ps' => forallb (λ q, bool_decide (apart p q)) ps' && separated ps'
  end.

(** No entry refuses to be removed. *)
Definition removable (fs : filesystem) : bool :=
  bool_decide (map_Forall (λ _ n, remove_error n = None) fs).

(** Two file systems hold the same entries at the paths satisfying [P]. *)
Definition agree_on (P : Path → Prop) (fs1 fs2 : filesystem) : Prop :=
  ∀ q, P q → fs1 !! q = fs2 !! q.

(** ** Sample data *)

Definition sample_library : Path := mkpath "/lib".

Definition sample_game : SteamGame :=
  {| appid := "10"; name := VStr "Foo"; install_dir := "Foo";
     size_on_disk := 500; library_path := sample_library;
     has_compatdata := true; has_shadercache := false;
     playtime_minutes := 0 |}.

(** The same package as the catalog of another day would list it. *)
Definition sample_game_later : SteamGame :=
  {| appid := "10"; name := VStr "Foo (updated)"; install_dir := "Foo";
     size_on_disk := 777; library_path := sample_library;
     has_compatdata := false; has_shadercache := true;
     playtime_minutes := 90 |}.

Definition sample_entries (payload : node) : list (Path * node) :=
  [(mkpath "/lib", plain_dir);
   (mkpath "/lib/steamapps", plain_dir);
   (mkpath "/lib/steamapps/appmanifest_10.acf", plain_file "" 120);
   (mkpath "/lib/steamapps/common", plain_dir);
   (mkpath "/lib/steamapps/common/Foo", plain_dir);
   (mkpath "/lib/steamapps/common/Foo/game.bin", payload);
   (mkpath "/lib/steamapps/compatdata", plain_dir);
   (mkpath "/lib/steamapps/compatdata/10", plain_dir);
   (mkpath "/lib/steamapps/compatdata/10/pfx", plain_file "" 7)].

Definition sample_fs : filesystem :=
  list_to_map (sample_entries (plain_file "" 500)).

(** The same tree, where the payload file cannot be removed. *)
Definition locked_fs : filesystem :=
  list_to_map
    (sample_entries
       {| node_kind := File "" 500; stat_error := None;
          remove_error := Some (PermissionError "game.bin");
          read_error := None |}).

(** ** The invariants of the catalog *)

(** What holds of every package listed: its payload directory exists and
    its name is a string that names no runtime or tool component. *)
Definition membership_invariant (fs : filesystem) (g : SteamGame) : Prop :=
  path_exists fs (game_path g) = true ∧
  ∃ s, name g = VStr s ∧
       contains "Runtime" s = false ∧ contains "Proton" s = false.

(** ** A sample installation

    Two libraries, the second one at [/games];
    in the first a package with compatibility data, a plain one, a
    runtime component and a descriptor without payload. *)
Definition manifest_text (app title dir size : string) : string :=
  doc_text [Block "AppState" [Pair "appid" app; Pair "name" title;
                              Pair "installdir" dir;
                              Pair "SizeOnDisk" size]].

Definition steam_home : Path := mkpath "/home/u".

Definition steam_root : Path := steam_home </> ".local" </> "share" </> "Steam".

Definition library_text (paths : list string) : string :=
  doc_text
    [Block "libraryfolders"
       (imap (λ i path, Block (String (ascii_of_nat (48 + i)) EmptyString)
                          [Pair "path" path]) paths)].

Definition steam_fs : filesystem :=
  list_to_map
    [(steam_root, plain_dir);
     (steam_root </> "steamapps", plain_dir);
     (steam_root </> "steamapps/libraryfolders.vdf",
      plain_file (library_text ["/home/u/.local/share/Steam"; "/games";
                                "/gone"]) 100);
     (steam_root </> "steamapps/appmanifest_10.acf",
      plain_file (manifest_text "10" "Foo" "Foo" "500000000") 300);
     (steam_root </> "steamapps/appmanifest_20.acf",
      plain_file (manifest_text "20" "Bar" "Bar" "200000000") 300);
     (steam_root </> "steamapps/appmanifest_30.acf",
      plain_file (manifest_text "30" "Proton 7.0" "Proton 7.0" "1000") 300);
     (steam_root </> "steamapps/appmanifest_40.acf",
      plain_file (manifest_text "40" "Orphan" "Orphan" "1000") 300);
     (steam_root </> "steamapps/common", plain_dir);
     (steam_root </> "steamapps/common/Foo", plain_dir);
     (steam_root </> "steamapps/common/Foo/foo.bin", plain_file "" 500000000);
     (steam_root </> "steamapps/common/Bar", plain_dir);
     (steam_root </> "steamapps/common/Bar/bar.bin", plain_file "" 200000000);
     (steam_root </> "steamapps/common/Proton 7.0", plain_dir);
     (steam_root </> "steamapps/compatdata", plain_dir);
     (steam_root </> "steamapps/compatdata/20", plain_dir);
     (steam_root </> "steamapps/compatdata/20/pfx.tar",
      plain_file "" 52428800);
     (steam_root </> "userdata", plain_dir);
     (steam_root </> "userdata/1", plain_dir);
     (steam_root </> "userdata/1/config", plain_dir);
     (steam_root </> "userdata/1/config/localconfig.vdf",
      plain_file
        (doc_text
           [Block "UserLocalConfigStore"
              [Block "Software"
                 [Block "Valve"
                    [Block "Steam"
                       [Block "apps"
                          [Block "10" [Pair "Playtime" "90"]]]]]]]) 10);
     (mkpath "/games", plain_dir);
     (mkpath "/games/steamapps", plain_dir);
     (mkpath "/games/steamapps/appmanifest_50.acf",
      plain_file (manifest_text "50" "apple" "Apple" "7") 300);
     (mkpath "/games/steamapps/common", plain_dir);
     (mkpath "/games/steamapps/common/Apple", plain_dir)].

Definition game_apple : SteamGame :=
  {| appid := "50"; name := VStr "apple"; install_dir := "Apple";
     size_on_disk := 7; library_path := mkpath "/games";
     has_compatdata := false; has_shadercache := false;
     playtime_minutes := 0 |}.

Definition game_bar : SteamGame :=
  {| appid := "20"; name := VStr "Bar"; install_dir := "Bar";
     size_on_disk := 200000000; library_path := steam_root;
     has_compatdata := true; has_shadercache := false;
     playtime_minutes := 0 |}.

Definition game_foo : SteamGame :=
  {| appid := "10"; name := VStr "Foo"; install_dir := "Foo";
     size_on_disk := 500000000; library_path := steam_root;
     has_compatdata := false; has_shadercache := false;
     playtime_minutes := 90 |}.

(** The same installation, whose descriptor lists [/games] twice. *)
Definition twice_listed_fs : filesystem :=
  <[steam_root </> "steamapps/libraryfolders.vdf" :=
      plain_file (library_text ["/games"; "/games"]) 100]> steam_fs.

(** The same installation, whose descriptor binds [libraryfolders] to a
    string. *)
Definition string_listed_fs : filesystem :=
  <[steam_root </> "steamapps/libraryfolders.vdf" :=
      plain_file (doc_text [Pair "libraryfolders" "none"]) 100]> steam_fs.

(** ** Writing a mapping as a descriptor

    The inverse of the parser on trees: each binding of a mapping becomes an
    entry of the grammar. *)
Fixpoint value_entry (k : string) (v : value) : entry :=
  match v with
  | VStr s => Pair k s
  | VDict d =>
      Block k ((fix go (l : dict) : list entry :=
                  match l with
                  | [] => []
                  | (k', v') :: l' => value_entry k' v' :: go l'
                  end) d)
  end.

Definition dict_entries (d : dict) : list entry :=
  (λ kv, value_entry kv.1 kv.2) <$> d.

(** No key and no leaf of the tree holds a double quote. *)
Fixpoint value_quote_free (v : value) : bool :=
  match v with
  | VStr s => quote_free s
  | VDict d =>
      (fix go (l : dict) : bool :=
         match l with
         | [] => true
         | (k, v') :: l' => quote_free k && value_quote_free v' && go l'
         end) d
  end.

(** A run of closing braces. *)
Fixpoint closing_braces (n : nat) : string :=
  match n with
  | O => EmptyString
  | S n' => String "}" (closing_braces n')
  end.

(** ** Plain names

    A name that is one path part: not empty, not [.], without a slash. *)
Fixpoint slash_free (s : string) : bool :=
  match s with
  | EmptyString => true
  | String c s' => negb (bool_decide (c = "/"%char)) && slash_free s'
  end.

Definition plain_name (s : string) : bool :=
  slash_free s && bool_decide (s ≠ EmptyString) && bool_decide (s ≠ ".").

(** ** More of the deletion engine *)

(** [UninstallSummary.all_successful] *)
Definition all_successful (summary : UninstallSummary) : bool :=
  bool_decide (failed summary = 0).

(** [calculate_total_size(games)] *)
Definition calculate_total_size (fs : filesystem) (games : list SteamGame)
    : Z :=
  foldl (λ total g,
           let total := total + size_on_disk g in
           let total :=
             if has_compatdata g
             then total + get_dir_size fs (compatdata_path g) else total in
           let total :=
             if has_shadercache g
             then total + get_dir_size fs (shadercache_path g) else total in
           total) 0 games.

(** Nothing is left at [p] or below it. *)
Definition cleared (fs : filesystem) (p : Path) : Prop :=
  ∀ q, p `prefix_of` q → fs !! q = None.

(** What a dry run counts for one path: its measured size when it exists
    and measuring it succeeds. *)
Definition measured (fs : filesystem) (p : Path) : Z :=
  if path_exists fs p
  then match measure fs p with inr size => size | inl _ => 0 end
  else 0.

(** The share of one package in [calculate_total_size]. *)
Definition estimate (fs : filesystem) (g : SteamGame) : Z :=
  size_on_disk g
  + (if has_compatdata g then get_dir_size fs (compatdata_path g) else 0)
  + (if has_shadercache g then get_dir_size fs (shadercache_path g) else 0).

(** ** The selection of the game list screen

    From [GameListScreen] in [tui.py]: [selected] is a set of identifiers;
    the widgets are left out. *)

(** [on_data_table_row_selected] and [action_toggle_selection], on the
    identifier of the row. *)
Definition toggle (app : string) (selected : gset string) : gset string :=
  if decide (app ∈ selected) then selected ∖ {[app]} else selected ∪ {[app]}.

(** [action_select_all], over the games shown. *)
Definition select_all (filtered_games : list SteamGame)
    (selected : gset string) : gset string :=
  foldl (λ sel g, sel ∪ {[appid g]}) selected filtered_games.

(** [selected_games] in [action_confirm]: the games handed to the
    confirmation screen and from there to [uninstall_games]. *)
Definition selected_games (games : list SteamGame) (selected : gset string)
    : list SteamGame :=
  filter (λ g, appid g ∈ selected) games.

(** [on_input_changed]: the new value of [filtered_games]. The names are
    lowered one after the other, so a name that is a mapping raises. *)
Definition filter_games (games : list SteamGame) (value : string)
    : exn + list SteamGame :=
  let filter_text := lower value in
  if bool_decide (filter_text = EmptyString) then inr games
  else
    match mapM (λ g, k ← sort_key g; Some (k, g)) games with
    | None => inl (OtherError "'dict' object has no attribute 'lower'")
    | Some keyed =>
        inr (filter (λ kg, contains filter_text kg.1 = true) keyed).*2
    end.

(** * Properties *)

(** ** The heap parser and the zipper agree *)

Section heap_zipper.
Implicit Types (h : list obj) (d : dict) (o : obj) (v : value) (c : cell).

Lemma denotes_dict h lim lo d b :
  denotes h lim lo (VDict d) (CRef b) ↔
  (lo < b < lim)%nat ∧ ∃ o, h !! b = Some o ∧ objrep h lim b d o.
Proof.
  simpl. split.
  - intros [Hb Hgo]. split; [done|].
    destruct (h !! b) as [o|]; [|done]. exists o. split; [done|].
    revert o Hgo. induction d as [|[k v] d IH]; intros [|[k' c] o]; try done.
    + constructor.
    + intros (-> & Hv & Hgo). constructor; [done|]. by apply IH.
  - intros [Hb (o & -> & Hrep)]. split; [done|].
    induction Hrep as [|[k v] [k' c] d o [Hk Hv] _ IH]; [done|].
    simpl in *. by subst.
Qed.

Lemma denotes_mono h h' lim lim' lo v c :
  (∀ b, (lo < b < lim)%nat → h' !! b = h !! b) → (lim ≤ lim')%nat →
  denotes h lim lo v c → denotes h' lim' lo v c.
Proof.
  intros Hagree Hlim. revert lo c Hagree.
  induction v as [s|d IH] using value_ind_nested; intros lo c Hagree.
  { by destruct c. }
  destruct c as [|b]; [done|]. rewrite !denotes_dict.
  intros [Hb (o & Ho & Hrep)]. split; [lia|].
  exists o. split; [by rewrite Hagree|].
  clear Ho. unfold objrep in *.
  induction Hrep as [|kv kc d o [Hk Hv] _ IHrep]; [constructor|].
  apply Forall_cons in IH as [IHv IHd]. constructor; [|by apply IHrep].
  split; [done|]. apply IHv; [|done]. intros b' ?. apply Hagree. lia.
Qed.

Lemma objrep_mono h h' lim lim' a d o :
  (∀ b, (a < b < lim)%nat → h' !! b = h !! b) → (lim ≤ lim')%nat →
  objrep h lim a d o → objrep h' lim' a d o.
Proof.
  intros Hagree Hlim Hrep. eapply Forall2_impl; [done|].
  intros kv kc [? ?]. split; [done|]. by eapply denotes_mono.
Qed.

Lemma objrep_dict_set h lim a d o k v c :
  objrep h lim a d o → denotes h lim a v c →
  objrep h lim a (dict_set k v d) (dict_set k c o).
Proof.
  intros Hrep Hv.
  induction Hrep as [|[k1 v1] [k2 c2] d o [Hk Hv1] Hrep IH]; simpl in *.
  { by repeat constructor. }
  subst k2. case_decide; by repeat constructor.
Qed.

Lemma frames_rep_mono h h' child stk frames :
  (∀ b, (b < child)%nat → h' !! b = h !! b) →
  frames_rep h child stk frames → frames_rep h' child stk frames.
Proof.
  revert child frames.
  induction stk as [|a stk IH]; intros child [|[parent k] fs] Hagree; try done.
  simpl. intros (Ha & (o & Ho & Hrep) & Hfs). split; [done|]. split.
  - exists o. split; [rewrite Hagree; [done|lia]|].
    eapply objrep_mono; [..|done]; [|lia]. intros b ?. apply Hagree. lia.
  - apply IH; [|done]. intros b ?. apply Hagree. lia.
Qed.

Lemma step_sim st z t :
  sim st z → ∃ st', step st t = Some st' ∧ sim st' (zstep z t).
Proof.
  destruct st as [h stk0 key], z as [cur frames zk].
  intros [Hkey (a & stk & o & Hstk & Ha & Ho & Hrep & Hfs)].
  simpl in *. subst stk0 zk. destruct t as [| |v]; simpl.
  - destruct key as [k|]; simpl.
    2:{ eexists. split; [done|]. split; [done|]. by exists a, stk, o. }
    unfold store. rewrite lookup_app_l, Ho by done. simpl.
    eexists. split; [done|]. split; [done|].
    exists (length h), (a :: stk), []. simpl.
    rewrite length_insert, length_app. simpl.
    split_and!; [done|lia| |constructor|lia| |].
    + rewrite list_lookup_insert_ne by lia.
      rewrite lookup_app_r by lia. by rewrite Nat.sub_diag.
    + exists o. split.
      * apply list_lookup_insert_eq. rewrite length_app. lia.
      * eapply objrep_mono; [..|done]; [|lia]. intros b ?.
        rewrite list_lookup_insert_ne by lia. apply lookup_app_l. lia.
    + eapply frames_rep_mono; [|done]. intros b ?.
      rewrite list_lookup_insert_ne by lia. apply lookup_app_l. lia.
  - destruct stk as [|a' stk], frames as [|[parent k] fs]; try done; simpl.
    { eexists. split; [done|]. split; [done|]. by exists a, [], o. }
    destruct Hfs as (Ha' & (o' & Ho' & Hrep') & Hfs).
    eexists. split; [done|]. split; [done|].
    exists a', stk, (dict_set k (CRef a) o'). simpl.
    split_and!; [done|lia|done| |done].
    apply objrep_dict_set.
    + eapply objrep_mono; [..|done]; [done|lia].
    + apply denotes_dict. split; [lia|]. by exists o.
  - destruct key as [k|]; simpl.
    2:{ eexists. split; [done|]. split; [done|]. by exists a, stk, o. }
    unfold store. rewrite Ho. simpl.
    eexists. split; [done|]. split; [done|].
    exists a, stk, (dict_set k (CStr v) o). simpl. rewrite length_insert.
    split_and!; [done|done| | |].
    + by apply list_lookup_insert_eq.
    + apply objrep_dict_set; [|done].
      eapply objrep_mono; [..|done]; [|lia]. intros b ?.
      apply list_lookup_insert_ne. lia.
    + eapply frames_rep_mono; [|done]. intros b ?.
      apply list_lookup_insert_ne. lia.
Qed.

Lemma run_sim ts st z :
  sim st z → ∃ st', run st ts = Some st' ∧ sim st' (zrun z ts).
Proof.
  revert st z. induction ts as [|t ts IH]; intros st z Hsim; simpl.
  { by exists st. }
  destruct (step_sim st z t Hsim) as (st1 & -> & Hsim1). simpl.
  by apply IH.
Qed.

Lemma sim_init : sim pinit zinit.
Proof.
  split; [done|]. exists 0%nat, [], []. simpl.
  split_and!; [done|lia|done|constructor|done].
Qed.

(** Closing the zipper gives what address 0 denotes. *)
Lemma zclose_rep h lim stk frames a cur o :
  (a < lim)%nat → h !! a = Some o → objrep h lim a cur o →
  frames_rep h a stk frames →
  ∃ o0, h !! 0%nat = Some o0 ∧ objrep h lim 0 (zclose cur frames) o0.
Proof.
  revert frames a cur o.
  induction stk as [|a' stk IH]; intros [|[parent k] fs] a cur o Ha Ho Hrep;
    try done; simpl.
  { intros ->. by exists o. }
  intros (Ha' & (o' & Ho' & Hrep') & Hfs).
  eapply IH; [| |  |done]; [lia|done|].
  apply objrep_dict_set.
  - eapply objrep_mono; [..|done]; [done|lia].
  - apply denotes_dict. split; [lia|]. by exists o.
Qed.

Lemma reify_cell_denotes h lim v :
  ∀ lo c k fuel, denotes h lim lo v c → (lim - lo - 1 ≤ fuel)%nat →
    reify_cell (reify fuel h) (k, c) = Some (k, v).
Proof.
  induction v as [s|d IH] using value_ind_nested; intros lo c k fuel.
  { destruct c; [|done]. by intros ->. }
  destruct c as [|b]; [done|]. rewrite denotes_dict.
  intros [Hb (o & Ho & Hrep)] Hfuel. unfold reify_cell. simpl.
  destruct fuel as [|n]; [lia|]. simpl. rewrite Ho. simpl.
  assert (mapM (reify_cell (reify n h)) o = Some d) as ->; [|done].
  apply mapM_Some. clear Ho. unfold objrep in Hrep.
  induction Hrep as [|[k1 v1] [k2 c2] d o [Hk Hv] Hrep IHrep]; [constructor|].
  apply Forall_cons in IH as [IHv IHd]. simpl in *. subst k2.
  constructor; [|by apply IHrep]. eapply IHv; [done|lia].
Qed.

Lemma reify_objrep h lim a d o :
  (a < lim)%nat → h !! a = Some o → objrep h lim a d o →
  reify lim h a = Some d.
Proof.
  intros Ha Ho Hrep. destruct lim as [|n]; [lia|]. simpl. rewrite Ho. simpl.
  apply mapM_Some. clear Ho. unfold objrep in Hrep.
  induction Hrep as [|[k1 v1] [k2 c2] d o [Hk Hv] Hrep IHrep]; [constructor|].
  simpl in *. subst k2. constructor; [|done].
  eapply reify_cell_denotes; [done|lia].
Qed.

(** The heap parser never fails, and returns what the zipper builds. *)
Lemma parse_tokens_zipper ts :
  parse_tokens ts = Some (zresult (zrun zinit ts)).
Proof.
  unfold parse_tokens.
  destruct (run_sim ts _ _ sim_init) as (st & -> & Hsim). simpl.
  destruct Hsim as [_ (a & stk & o & _ & Ha & Ho & Hrep & Hfs)].
  destruct (zclose_rep _ _ _ _ _ _ _ Ha Ho Hrep Hfs) as (o0 & Ho0 & Hrep0).
  eapply reify_objrep; [lia|done..].
Qed.
End heap_zipper.

(** ** The tokens of a concatenated text *)

Lemma string_app_cons c s1 s2 : String c s1 +:+ s2 = String c (s1 +:+ s2).
Proof. done. Qed.

Lemma string_app_nil s : EmptyString +:+ s = s.
Proof. done. Qed.

Lemma string_app_assoc s1 s2 s3 : (s1 +:+ s2) +:+ s3 = s1 +:+ s2 +:+ s3.
Proof.
  induction s1 as [|c s1 IH]; [done|].
  by rewrite !string_app_cons, IH.
Qed.

Lemma finditer_app_both s1 s2 :
  (open_quote s1 = false →
     finditer (s1 +:+ s2) = finditer s1 ++ finditer s2) ∧
  (open_quote s1 = true →
     ∃ body ts, quoted_body s1 = Some (body, ts) ∧
                quoted_body (s1 +:+ s2) = Some (body, ts ++ finditer s2)).
Proof.
  induction s1 as [|c s1 [IHeven IHodd]]; [by split|].
  rewrite string_app_cons. simpl. repeat case_decide; subst; try done.
  { split; intros Hq.
    - apply negb_false_iff in Hq.
      by destruct (IHodd Hq) as (body & ts & -> & ->).
    - apply negb_true_iff in Hq. rewrite IHeven by done. eauto. }
  all: split; intros Hq;
    [by rewrite IHeven
    |destruct (IHodd Hq) as (body & ts & -> & ->); simpl; eauto].
Qed.

Lemma finditer_app s1 s2 :
  open_quote s1 = false → finditer (s1 +:+ s2) = finditer s1 ++ finditer s2.
Proof. apply finditer_app_both. Qed.

Lemma quoted_body_quote_free k s :
  quote_free k = true →
  quoted_body (k +:+ String dquote s) = Some (k, finditer s).
Proof.
  induction k as [|c k IH]; [done|]. rewrite string_app_cons. simpl.
  case_decide; [done|]. intros Hk. by rewrite IH.
Qed.

Lemma finditer_quoted k s :
  quote_free k = true → finditer (quoted k +:+ s) = TQuoted k :: finditer s.
Proof.
  intros Hk. unfold quoted. rewrite string_app_cons. simpl.
  rewrite string_app_assoc, string_app_cons, string_app_nil.
  by rewrite quoted_body_quote_free.
Qed.

Lemma run_app st ts1 ts2 :
  run st (ts1 ++ ts2) = st1 ← run st ts1; run st1 ts2.
Proof.
  revert st. induction ts1 as [|t ts1 IH]; intros st; simpl; [done|].
  destruct (step st t); simpl; [apply IH|done].
Qed.

Lemma zrun_app z ts1 ts2 : zrun z (ts1 ++ ts2) = zrun (zrun z ts1) ts2.
Proof. apply foldl_app. Qed.

Lemma string_app_nil_r s : s +:+ EmptyString = s.
Proof. induction s as [|c s IH]; [done|]. by rewrite string_app_cons, IH. Qed.

Lemma finditer_quoted_only k :
  quote_free k = true → finditer (quoted k) = [TQuoted k].
Proof.
  intros Hk. rewrite <-(string_app_nil_r (quoted k)).
  by rewrite finditer_quoted.
Qed.

(** ** Dictionaries *)

Lemma dict_get_set {V} k (v : V) d : dict_get k (dict_set k v d) = Some v.
Proof.
  induction d as [|[k' v'] d IH]; simpl; [by case_decide|].
  case_decide; simpl; by case_decide.
Qed.

Lemma dict_get_set_ne {V} k k' (v : V) d :
  k ≠ k' → dict_get k' (dict_set k v d) = dict_get k' d.
Proof.
  intros Hne. induction d as [|[k1 v1] d IH]; simpl; [by case_decide|].
  repeat (case_decide; simpl; subst); congruence.
Qed.

Lemma dict_set_keys {V} k (v : V) d :
  (dict_set k v d).*1 = if decide (k ∈ d.*1) then d.*1 else d.*1 ++ [k].
Proof.
  induction d as [|[k' v'] d IH]; [done|].
  cbn [dict_set].
  destruct (decide (k' = k)) as [->|Hne]; rewrite !fmap_cons; cbn [fst].
  - by rewrite decide_True by (apply elem_of_cons; auto).
  - rewrite IH. destruct (decide (k ∈ d.*1)).
    + by rewrite decide_True by (apply elem_of_cons; auto).
    + by rewrite decide_False by (intros [?|?]%elem_of_cons; done).
Qed.

Lemma dict_set_NoDup {V} k (v : V) d : NoDup d.*1 → NoDup (dict_set k v d).*1.
Proof.
  intros Hnd. rewrite dict_set_keys. case_decide; [done|].
  apply NoDup_app. split_and!; [done| |apply NoDup_singleton].
  intros x Hx ->%list_elem_of_singleton. done.
Qed.

Lemma dict_set_Forall {V} (P : string * V → Prop) k v d :
  Forall P d → P (k, v) → Forall P (dict_set k v d).
Proof.
  intros Hd Hv. induction Hd as [|[k' v'] d Hkv Hd IH]; simpl.
  { by constructor. }
  case_decide; by constructor.
Qed.

Lemma is_mapping_dict d :
  is_mapping (VDict d) ↔ NoDup d.*1 ∧ Forall (λ kv, is_mapping kv.2) d.
Proof.
  simpl. apply and_iff_compat_l.
  induction d as [|[k v] d IH]; [by split; [constructor|]|].
  rewrite Forall_cons, IH. done.
Qed.

Lemma is_mapping_set k v d :
  is_mapping (VDict d) → is_mapping v → is_mapping (VDict (dict_set k v d)).
Proof.
  rewrite !is_mapping_dict. intros [Hnd Hall] Hv. split.
  - by apply dict_set_NoDup.
  - by apply dict_set_Forall.
Qed.

(** ** The result is a mapping *)

Lemma zstep_mapping z t :
  is_mapping (VDict (zcur z)) →
  Forall (λ f, is_mapping (VDict f.1)) (zframes z) →
  is_mapping (VDict (zcur (zstep z t))) ∧
  Forall (λ f, is_mapping (VDict f.1)) (zframes (zstep z t)).
Proof.
  intros Hcur Hframes. destruct z as [cur frames key], t as [| |v]; simpl in *.
  - destruct key; simpl; [|done].
    split; [by split; [constructor|]|by constructor].
  - destruct frames as [|[parent k] frames]; simpl; [done|].
    apply Forall_cons in Hframes as [Hparent Hframes].
    split; [|done]. by apply is_mapping_set.
  - destruct key; simpl; [|done]. split; [|done]. by apply is_mapping_set.
Qed.

Lemma zrun_mapping ts : ∀ z,
  is_mapping (VDict (zcur z)) →
  Forall (λ f, is_mapping (VDict f.1)) (zframes z) →
  is_mapping (VDict (zresult (zrun z ts))).
Proof.
  induction ts as [|t ts IH]; intros z Hcur Hframes; simpl.
  - unfold zresult. destruct z as [cur frames key]. simpl in *. clear key.
    revert cur Hcur. induction Hframes as [|[parent k] frames Hp _ IHf];
      intros cur Hcur; simpl; [done|].
    apply IHf. by apply is_mapping_set.
  - destruct (zstep_mapping z t Hcur Hframes). by apply IH.
Qed.

Lemma parse_tokens_mapping ts :
  ∃ d, parse_tokens ts = Some d ∧ is_mapping (VDict d).
Proof.
  eexists. split; [apply parse_tokens_zipper|].
  apply zrun_mapping; [by split; [constructor|]|constructor].
Qed.

(** ** Permissive parsing *)

(** C2. [parse_vdf] returns a mapping on every input: the heap parser never
    fails, and no dictionary of the result holds a key twice. A closing brace met
    while only the root dictionary is on the stack changes nothing: the text
    parses as it does with that brace deleted. A quoted string that ends the
    text in key position leaves no trace in the result. *)
Theorem parse_vdf_permissive :
  (∀ content, ∃ d, parse_vdf content = Some d ∧ is_mapping (VDict d)) ∧
  (∀ s1 s2,
     open_quote s1 = false → open_scopes (finditer s1) = Some 1%nat →
     parse_vdf (s1 +:+ "}" +:+ s2) = parse_vdf (s1 +:+ s2)) ∧
  (∀ s k,
     open_quote s = false → quote_free k = true →
     pending_key (finditer s) = Some None →
     parse_vdf (s +:+ quoted k) = parse_vdf s).
Proof.
  split_and!.
  - intros content. apply parse_tokens_mapping.
  - intros s1 s2 Hq Hdepth. unfold parse_vdf.
    rewrite !finditer_app by done. simpl.
    unfold parse_tokens, open_scopes in *. rewrite !run_app.
    destruct (run pinit (finditer s1)) as [st|]; [|done]. simpl in *.
    case_decide; [|done]. simplify_eq. lia.
  - intros s k Hq Hk Hkey. unfold parse_vdf.
    rewrite finditer_app, finditer_quoted_only by done.
    unfold parse_tokens, pending_key in *. rewrite run_app.
    destruct (run pinit (finditer s)) as [st|]; [|done]. simpl in *.
    simplify_eq. by rewrite Hkey.
Qed.

Lemma parse_vdf_permissive_witness :
  parse_vdf ("}" +:+ quoted "a" +:+ quoted "b") =
    parse_vdf (quoted "a" +:+ quoted "b") ∧
  parse_vdf (quoted "a" +:+ quoted "b" +:+ quoted "c") =
    parse_vdf (quoted "a" +:+ quoted "b").
Proof.
  split.
  - apply (proj1 (proj2 parse_vdf_permissive) EmptyString); reflexivity.
  - rewrite <-string_app_assoc.
    apply (proj2 (proj2 parse_vdf_permissive)); reflexivity.
Defined.

(** C10. An opening brace met while no key is pending is skipped: no scope
    is opened, and the text parses as it does with that brace deleted, so
    what follows is bound in the scope that was current and a later closing
    brace closes the enclosing scope. *)
Theorem parse_vdf_open_without_key s1 :
  open_quote s1 = false → pending_key (finditer s1) = Some None →
  open_scopes (finditer (s1 +:+ "{")) = open_scopes (finditer s1) ∧
  ∀ s2, parse_vdf (s1 +:+ "{" +:+ s2) = parse_vdf (s1 +:+ s2).
Proof.
  intros Hq Hkey. unfold parse_vdf, parse_tokens, open_scopes, pending_key in *.
  split; [|intros s2]; rewrite !finditer_app by done;
    rewrite ?string_app_cons; simpl; rewrite !run_app;
    destruct (run pinit (finditer s1)) as [st|]; try done; simpl in *;
    simplify_eq; by rewrite Hkey.
Qed.

Lemma parse_vdf_open_without_key_witness :
  parse_vdf (quoted "a" +:+ quoted "b" +:+ "{" +:+ quoted "c" +:+ quoted "d"
             +:+ "}") =
  Some [("a", VStr "b"); ("c", VStr "d")].
Proof.
  pose proof (parse_vdf_open_without_key (quoted "a" +:+ quoted "b")
                eq_refl eq_refl) as [_ H].
  specialize (H (quoted "c" +:+ quoted "d" +:+ "}")).
  rewrite !string_app_assoc in H. rewrite H. reflexivity.
Defined.

(** ** Well-formed descriptors *)

Lemma zrun_entries body :
  Forall (λ e, ∀ z, zkey z = None →
            zrun z (entry_tokens e) =
            {| zcur := bind_entry (zcur z) e; zframes := zframes z;
               zkey := None |}) body →
  ∀ z, zkey z = None →
    zrun z (flat_map entry_tokens body) =
    {| zcur := foldl bind_entry (zcur z) body; zframes := zframes z;
       zkey := None |}.
Proof.
  induction 1 as [|e body He _ IH]; intros [cur frames key] Hkey; simpl in *.
  { by subst. }
  rewrite zrun_app, He by done. by rewrite IH.
Qed.

Lemma zrun_entry e z :
  zkey z = None →
  zrun z (entry_tokens e) =
  {| zcur := bind_entry (zcur z) e; zframes := zframes z; zkey := None |}.
Proof.
  revert z. induction e as [k v|k body IH] using entry_ind_nested;
    intros [cur frames key] Hkey; simpl in *; subst key; [done|].
  rewrite zrun_app, (zrun_entries body IH) by done. done.
Qed.

Lemma zrun_doc doc z :
  zkey z = None →
  zrun z (doc_tokens doc) =
  {| zcur := foldl bind_entry (zcur z) doc; zframes := zframes z;
     zkey := None |}.
Proof.
  apply zrun_entries, Forall_forall. intros e _ z'. apply zrun_entry.
Qed.

Lemma entry_binding_is_mapping e : is_mapping (entry_binding e).2.
Proof.
  induction e as [k v|k body IH] using entry_ind_nested; [done|].
  cbn [entry_binding snd].
  change (is_mapping (VDict (foldl bind_entry [] body))).
  assert (is_mapping (VDict [])) as Hnil by (split; [constructor|done]).
  revert Hnil. generalize (@nil (string * value)).
  induction IH as [|e body He _ IHbody]; intros acc Hacc; [done|].
  simpl. apply IHbody. by apply is_mapping_set.
Qed.

Lemma doc_dict_is_mapping doc : is_mapping (VDict (doc_dict doc)).
Proof. apply (entry_binding_is_mapping (Block EmptyString doc)). Qed.

(** C3. On a text whose tokens are those of a well-formed descriptor,
    [parse_vdf] returns the mapping the descriptor stands for: a pair of
    quoted strings is a key and its string value in the scope it appears in,
    a quoted string before an opening brace is a key bound to the mapping of
    what the braces enclose, and a key bound twice in one scope keeps the
    later binding. Every node of the result is a string or a mapping with no
    repeated key. *)
Theorem parse_vdf_well_formed content doc :
  finditer content = doc_tokens doc →
  parse_vdf content = Some (doc_dict doc) ∧
  is_mapping (VDict (doc_dict doc)) ∧
  (∀ acc e, dict_get (entry_binding e).1 (bind_entry acc e)
            = Some (entry_binding e).2).
Proof.
  intros Htok. split_and!.
  - unfold parse_vdf. rewrite Htok, parse_tokens_zipper.
    by rewrite zrun_doc.
  - apply doc_dict_is_mapping.
  - intros acc e. apply dict_get_set.
Qed.

Lemma parse_vdf_well_formed_witness :
  parse_vdf (doc_text [Pair "a" "1"; Block "b" [Pair "x" "2"; Pair "x" "3"];
                       Pair "a" "4"]) =
  Some [("a", VStr "4"); ("b", VDict [("x", VStr "3")])].
Proof.
  apply (parse_vdf_well_formed _
           [Pair "a" "1"; Block "b" [Pair "x" "2"; Pair "x" "3"];
            Pair "a" "4"]).
  reflexivity.
Defined.

(** The text of a descriptor has the tokens of the descriptor. *)
Lemma finditer_entries_text body tail :
  Forall (λ e, ∀ s, entry_quote_free e = true →
            finditer (entry_text e +:+ s) = entry_tokens e ++ finditer s)
         body →
  forallb entry_quote_free body = true →
  finditer (foldr (λ e s, entry_text e +:+ s) tail body) =
  flat_map entry_tokens body ++ finditer tail.
Proof.
  induction 1 as [|e body He _ IH]; [done|]. simpl.
  intros [Hqe Hqb]%andb_true_iff. rewrite He by done.
  by rewrite IH, (assoc_L (++)).
Qed.

Lemma finditer_space s : finditer (String " " s) = finditer s.
Proof. done. Qed.

Lemma finditer_open s : finditer (String "{" s) = TOpen :: finditer s.
Proof. done. Qed.

Lemma finditer_close s : finditer (String "}" s) = TClose :: finditer s.
Proof. done. Qed.

Lemma finditer_entry_text e s :
  entry_quote_free e = true →
  finditer (entry_text e +:+ s) = entry_tokens e ++ finditer s.
Proof.
  revert s. induction e as [k v|k body IH] using entry_ind_nested;
    intros s; cbn [entry_text entry_quote_free entry_tokens];
    intros [Hk Hv]%andb_true_iff.
  - rewrite !string_app_assoc, finditer_quoted by done.
    rewrite string_app_cons, finditer_space, string_app_nil.
    rewrite finditer_quoted by done.
    by rewrite string_app_cons, finditer_space, string_app_nil.
  - rewrite !string_app_assoc, finditer_quoted by done.
    rewrite !string_app_cons, finditer_space, finditer_open, finditer_space.
    rewrite string_app_nil. cbn [app]. do 2 f_equal.
    assert (∀ t, foldr (λ e' s0, entry_text e' +:+ s0) t body +:+ s =
                 foldr (λ e' s0, entry_text e' +:+ s0) (t +:+ s) body) as ->.
    { intros t. clear. induction body as [|e body IHb]; [done|]. cbn [foldr].
      by rewrite string_app_assoc, IHb. }
    rewrite (finditer_entries_text body _ IH Hv).
    rewrite !string_app_cons, finditer_close, finditer_space, string_app_nil.
    by rewrite <-(assoc_L (++)).
Qed.

Lemma finditer_doc_text doc :
  forallb entry_quote_free doc = true →
  finditer (doc_text doc) = doc_tokens doc.
Proof.
  intros Hq. unfold doc_text, doc_tokens.
  rewrite finditer_entries_text; [apply app_nil_r| |done].
  apply Forall_forall. intros e _ s He. by apply finditer_entry_text.
Qed.

(** ** The batch summary *)

Lemma uninstall_loop_acc dry_run games : ∀ fs acc,
  uninstall_loop dry_run fs games acc =
  ((uninstall_loop dry_run fs games []).1,
   acc ++ (uninstall_loop dry_run fs games []).2).
Proof.
  induction games as [|g games IH]; intros fs acc; simpl.
  { by rewrite app_nil_r. }
  destruct (uninstall_game fs g dry_run) as [fs' r].
  rewrite (IH fs' (acc ++ [r])), (IH fs' [r]). simpl.
  by rewrite <-(assoc_L (++)).
Qed.

Lemma uninstall_loop_cons dry_run fs g games :
  uninstall_loop dry_run fs (g :: games) [] =
  ((uninstall_loop dry_run (uninstall_game fs g dry_run).1 games []).1,
   (uninstall_game fs g dry_run).2 ::
   (uninstall_loop dry_run (uninstall_game fs g dry_run).1 games []).2).
Proof.
  simpl. destruct (uninstall_game fs g dry_run) as [fs' r].
  by rewrite uninstall_loop_acc.
Qed.

Lemma uninstall_game_game fs g dry_run : game (uninstall_game fs g dry_run).2 = g.
Proof.
  unfold uninstall_game.
  by destruct (delete_paths _ _ _ _) as [[fs' bytes] [e|]].
Qed.

Lemma uninstall_loop_games dry_run games : ∀ fs,
  game <$> (uninstall_loop dry_run fs games []).2 = games.
Proof.
  induction games as [|g games IH]; intros fs; [done|].
  rewrite uninstall_loop_cons. cbn [snd fmap list_fmap].
  by rewrite uninstall_game_game, IH.
Qed.

(** C9. The summary holds one result per package, in the order of the
    input whatever the outcomes, and its counters agree with the results:
    [total_games] is the number of packages, [successful] the number of
    results with [success] set, [failed] their difference, and
    [total_bytes_freed] the sum of the [bytes_freed] fields. *)
Theorem uninstall_games_summary fs games dry_run :
  let summary := (uninstall_games fs games dry_run).2 in
  game <$> results summary = games ∧
  total_games summary = Z.of_nat (length games) ∧
  successful summary =
    Z.of_nat (length (filter (λ r, success r = true) (results summary))) ∧
  failed summary = total_games summary - successful summary ∧
  total_bytes_freed summary = foldr Z.add 0 (bytes_freed <$> results summary).
Proof.
  unfold uninstall_games.
  pose proof (uninstall_loop_games dry_run games fs) as Hgames.
  destruct (uninstall_loop dry_run fs games []) as [fs' rs]. simpl in *.
  split_and!; [done|done| |done|].
  - clear. induction rs as [|r rs IH]; [done|]. simpl.
    rewrite filter_cons. destruct (success r); simpl; lia.
  - clear. induction rs as [|r rs IH]; [done|]. simpl. by rewrite IH.
Qed.

(** ** What a deletion touches *)

Lemma removed_only_refl P fs : removed_only P fs fs.
Proof. intros q. by left. Qed.

Lemma removed_only_trans P Q fs1 fs2 fs3 :
  removed_only P fs1 fs2 → removed_only Q fs2 fs3 →
  removed_only (λ q, P q ∨ Q q) fs1 fs3.
Proof.
  intros H12 H23 q. destruct (H23 q) as [->|[-> ?]]; [|by auto].
  destruct (H12 q) as [->|[-> ?]]; auto.
Qed.

Lemma removed_only_mono (P Q : Path → Prop) fs fs' :
  (∀ q, P q → Q q) → removed_only P fs fs' → removed_only Q fs fs'.
Proof. intros HPQ H q. destruct (H q) as [?|[? ?]]; auto. Qed.

Lemma removed_only_delete fs p : removed_only (λ q, q = p) fs (delete p fs).
Proof.
  intros q. destruct (decide (p = q)) as [->|Hne].
  - right. by rewrite lookup_delete_eq.
  - left. by rewrite lookup_delete_ne.
Qed.

Lemma unlink_frame fs p : removed_only (λ q, q = p) fs (unlink fs p).1.
Proof.
  unfold unlink. destruct (fs !! p) as [[[content size|] ? [e|] ?]|];
    simpl; try apply removed_only_refl.
  apply removed_only_delete.
Qed.

Lemma remove_entries_frame l : ∀ fs,
  removed_only (λ q, q ∈ l.*1) fs (remove_entries l fs).1.
Proof.
  induction l as [|[p n] l IH]; intros fs; simpl.
  { apply removed_only_refl. }
  destruct (remove_error n); [apply removed_only_refl|].
  eapply removed_only_mono;
    [|exact (removed_only_trans _ _ _ _ _ (removed_only_delete fs p) (IH _))].
  intros q [->|?]; [apply list_elem_of_here|by apply list_elem_of_further].
Qed.

Lemma rmtree_frame fs p :
  removed_only (λ q, p `prefix_of` q) fs (rmtree fs p).1.
Proof.
  unfold rmtree. destruct (fs !! p) as [n|]; [|apply removed_only_refl].
  eapply removed_only_mono; [|apply remove_entries_frame].
  intros q. rewrite fmap_app, elem_of_app, list_elem_of_fmap.
  intros [([q' n'] & -> & Hq)|Hq%list_elem_of_singleton]; [|by subst].
  apply elem_of_map_to_list, map_lookup_filter_Some in Hq as [_ [Hq _]].
  done.
Qed.

Lemma remove_frame fs p :
  removed_only (λ q, p `prefix_of` q) fs (remove fs p).1.
Proof.
  unfold remove. destruct (is_file fs p); [|apply rmtree_frame].
  eapply removed_only_mono; [|apply unlink_frame]. by intros q ->.
Qed.

Lemma delete_path_frame dry_run fs bytes p :
  removed_only (λ q, p `prefix_of` q) fs (delete_path dry_run fs bytes p).1.1.
Proof.
  unfold delete_path. destruct (negb _); [apply removed_only_refl|].
  destruct (measure fs p) as [e|size]; [apply removed_only_refl|].
  destruct dry_run; [apply removed_only_refl|].
  pose proof (remove_frame fs p) as Hrm.
  by destruct (remove fs p) as [fs' [e|]].
Qed.

Lemma delete_paths_frame dry_run paths : ∀ fs bytes,
  removed_only (below paths) fs (delete_paths dry_run fs bytes paths).1.1.
Proof.
  induction paths as [|[p desc] paths IH]; intros fs bytes; simpl.
  { apply removed_only_refl. }
  pose proof (delete_path_frame dry_run fs bytes p) as Hp.
  destruct (delete_path dry_run fs bytes p) as [[fs' bytes'] [e|]]; simpl in *.
  - eapply removed_only_mono; [|done]. intros q Hq. exists p.
    split; [apply list_elem_of_here|done].
  - eapply removed_only_mono;
      [|exact (removed_only_trans _ _ _ _ _ Hp (IH fs' bytes'))].
    intros q [Hq|(p' & Hp' & Hq)].
    + exists p. split; [apply list_elem_of_here|done].
    + exists p'. split; [by apply list_elem_of_further|done].
Qed.

Lemma uninstall_game_removed_only fs g dry_run :
  removed_only (below (get_game_paths fs g)) fs (uninstall_game fs g dry_run).1.
Proof.
  unfold uninstall_game.
  pose proof (delete_paths_frame dry_run (get_game_paths fs g) fs 0) as H.
  by destruct (delete_paths _ _ _ _) as [[fs' bytes] [e|]].
Qed.



(** ** Failures *)

Lemma delete_paths_app dry_run pre rest : ∀ fs bytes,
  delete_paths dry_run fs bytes (pre ++ rest) =
  match delete_paths dry_run fs bytes pre with
  | (fs1, bytes1, None) => delete_paths dry_run fs1 bytes1 rest
  | raised => raised
  end.
Proof.
  induction pre as [|[p desc] pre IH]; intros fs bytes; simpl; [done|].
  destruct (delete_path dry_run fs bytes p) as [[fs' bytes'] [e|]]; [done|].
  apply IH.
Qed.

Lemma uninstall_games_cons fs g rest dry_run :
  results (uninstall_games fs (g :: rest) dry_run).2 =
  (uninstall_game fs g dry_run).2 ::
  results (uninstall_games (uninstall_game fs g dry_run).1 rest dry_run).2.
Proof.
  unfold uninstall_games. rewrite uninstall_loop_cons.
  by destruct (uninstall_loop dry_run _ rest []) as [fs' rs].
Qed.



(** ** Dry run against live run *)

Lemma agree_on_mono (P Q : Path → Prop) fs1 fs2 :
  (∀ q, Q q → P q) → agree_on P fs1 fs2 → agree_on Q fs1 fs2.
Proof. intros HQP H q Hq. by apply H, HQP. Qed.

Lemma agree_on_exists fs1 fs2 p :
  agree_on (λ q, p `prefix_of` q) fs1 fs2 →
  path_exists fs1 p = path_exists fs2 p.
Proof. intros H. unfold path_exists. by rewrite (H p). Qed.

Lemma agree_on_is_file fs1 fs2 p :
  agree_on (λ q, p `prefix_of` q) fs1 fs2 → is_file fs1 p = is_file fs2 p.
Proof. intros H. unfold is_file. by rewrite (H p). Qed.

Lemma agree_on_descendants fs1 fs2 p :
  agree_on (λ q, p `prefix_of` q) fs1 fs2 →
  descendants fs1 p = descendants fs2 p.
Proof.
  intros H. apply map_eq. intros q. apply option_eq. intros n.
  unfold descendants. rewrite !map_lookup_filter_Some. simpl.
  split; intros [Hq [Hp Hne]]; (split; [|done]).
  - by rewrite <-H.
  - by rewrite H.
Qed.

Lemma agree_on_measure fs1 fs2 p :
  agree_on (λ q, p `prefix_of` q) fs1 fs2 → measure fs1 p = measure fs2 p.
Proof.
  intros H. unfold measure, stat_size, get_dir_size.
  rewrite (agree_on_is_file _ _ _ H), (agree_on_exists _ _ _ H).
  by rewrite (agree_on_descendants _ _ _ H), (H p).
Qed.

Lemma removable_lookup fs p n :
  removable fs = true → fs !! p = Some n → remove_error n = None.
Proof. intros Hrm%bool_decide_eq_true Hp. by apply (Hrm p n). Qed.

Lemma removable_removed_only P fs fs' :
  removed_only P fs fs' → removable fs = true → removable fs' = true.
Proof.
  intros Hfr Hrm. apply bool_decide_eq_true. intros p n Hp.
  destruct (Hfr p) as [Heq|[Heq _]]; [|congruence].
  eapply removable_lookup; [done|]. by rewrite <-Heq.
Qed.

Lemma remove_entries_ok l : ∀ fs,
  Forall (λ qn, remove_error qn.2 = None) l → (remove_entries l fs).2 = None.
Proof.
  induction l as [|[q n] l IH]; intros fs Hl; simpl; [done|].
  apply Forall_cons in Hl as [Hn Hl]. simpl in Hn. rewrite Hn. by apply IH.
Qed.

Lemma remove_ok fs p :
  removable fs = true → path_exists fs p = true → (remove fs p).2 = None.
Proof.
  intros Hrm [n Hn]%bool_decide_eq_true.
  pose proof (removable_lookup _ _ _ Hrm Hn) as Herr.
  unfold remove, is_file, unlink, rmtree. rewrite Hn.
  destruct n as [[content size|] ? ? ?]; simpl in *; subst; [done|].
  apply remove_entries_ok, Forall_app. split.
  - apply Forall_forall. intros [q n] Hq. simpl.
    apply elem_of_map_to_list, map_lookup_filter_Some in Hq as [Hq _].
    by eapply removable_lookup.
  - by repeat constructor.
Qed.

Lemma separated_cons p ps :
  separated (p :: ps) = true ↔ Forall (apart p) ps ∧ separated ps = true.
Proof.
  simpl. rewrite andb_true_iff, forallb_forall, Forall_forall.
  apply and_iff_compat_r. split; intros H q Hq.
  - by eapply bool_decide_eq_true_1, H, list_elem_of_In.
  - by apply bool_decide_eq_true_2, H, list_elem_of_In.
Qed.

Lemma separated_app l1 l2 :
  separated (l1 ++ l2) = true →
  separated l1 = true ∧ separated l2 = true ∧
  ∀ p q, p ∈ l1 → q ∈ l2 → apart p q.
Proof.
  induction l1 as [|p l1 IH]; [by intros; split_and!; [..|intros ?? ?%elem_of_nil]|].
  rewrite <-app_comm_cons, !separated_cons, Forall_app.
  intros [[Hl1 Hl2] (? & ? & Hcross)%IH]. split_and!; [done..|].
  intros p' q [->|Hp']%elem_of_cons Hq; [|by apply Hcross].
  by eapply Forall_forall in Hl2.
Qed.

Lemma separated_sublist l1 l2 :
  l1 `sublist_of` l2 → separated l2 = true → separated l1 = true.
Proof.
  induction 1 as [|p l1 l2 Hsub IH|p l1 l2 Hsub IH]; [done|..];
    rewrite ?separated_cons; intros [Hp Hl2].
  - split; [|by apply IH]. apply Forall_forall. intros q Hq.
    eapply Forall_forall in Hp; [done|]. by eapply elem_of_sublist.
  - by apply IH.
Qed.

(** Two paths with a common extension are comparable. *)
Lemma apart_no_common p p' q :
  apart p p' → p `prefix_of` q → p' `prefix_of` q → False.
Proof.
  intros [H1 H2] Hp Hp'.
  by destruct (prefix_weak_total p p' q Hp Hp').
Qed.

Lemma delete_paths_dry paths : ∀ fs bytes,
  (delete_paths true fs bytes paths).1.1 = fs.
Proof.
  induction paths as [|[p desc] paths IH]; intros fs bytes; simpl; [done|].
  unfold delete_path. destruct (negb _); simpl; [apply IH|].
  destruct (measure fs p); simpl; [done|apply IH].
Qed.

Lemma below_cons_here p desc paths q :
  p `prefix_of` q → below ((p, desc) :: paths) q.
Proof. intros Hq. exists p. split; [apply list_elem_of_here|done]. Qed.

Lemma below_cons_further pd paths q : below paths q → below (pd :: paths) q.
Proof.
  intros (p & Hp & Hq). exists p. split; [by apply list_elem_of_further|done].
Qed.

(** With nothing refusing removal and no two planned paths overlapping, the
    live loop counts what the dry loop counts on the initial state. *)
Lemma delete_paths_dry_live fs0 paths : ∀ fsl bytes,
  separated paths.*1 = true → removable fsl = true →
  agree_on (below paths) fsl fs0 →
  (delete_paths false fsl bytes paths).1.2
    = (delete_paths true fs0 bytes paths).1.2 ∧
  (delete_paths false fsl bytes paths).2
    = (delete_paths true fs0 bytes paths).2.
Proof.
  induction paths as [|[p desc] paths IH]; intros fsl bytes Hsep Hrm Hagree;
    [done|].
  rewrite fmap_cons in Hsep. apply separated_cons in Hsep as [Hp Hsep].
  assert (agree_on (λ q, p `prefix_of` q) fsl fs0) as Hagree_p.
  { intros q Hq. by eapply Hagree, below_cons_here. }
  assert (agree_on (below paths) fsl fs0) as Hagree_rest.
  { intros q Hq. by apply Hagree, below_cons_further. }
  cbn [delete_paths]. unfold delete_path.
  rewrite (agree_on_exists _ _ _ Hagree_p), (agree_on_measure _ _ _ Hagree_p).
  destruct (path_exists fs0 p) eqn:Hex; simpl; [|by apply IH].
  destruct (measure fs0 p) as [e|size]; simpl; [done|].
  rewrite <-(agree_on_exists _ _ _ Hagree_p) in Hex.
  pose proof (remove_ok fsl p Hrm Hex) as Hok.
  pose proof (remove_frame fsl p) as Hframe.
  destruct (remove fsl p) as [fsl' raised]. simpl in *. subst raised.
  apply IH; [done|by eapply removable_removed_only|].
  intros q Hq. rewrite <-(Hagree_rest q Hq).
  destruct (Hframe q) as [?|[_ Hpq]]; [done|].
  destruct Hq as (p' & Hp' & Hp'q).
  eapply Forall_forall in Hp; [|done].
  by destruct (apart_no_common p p' q).
Qed.

Lemma get_game_paths_sublist fs g :
  (get_game_paths fs g).*1 `sublist_of` candidate_paths g.
Proof.
  unfold get_game_paths, candidate_paths.
  destruct (path_exists fs (game_path g)),
    (has_compatdata g && path_exists fs (compatdata_path g)),
    (has_shadercache g && path_exists fs (shadercache_path g));
    cbn [app fmap list_fmap fst];
    repeat first [apply sublist_skip | apply sublist_cons]; apply sublist_nil.
Qed.

Lemma below_candidate fs g q :
  below (get_game_paths fs g) q → ∃ p, p ∈ candidate_paths g ∧ p `prefix_of` q.
Proof.
  intros (p & Hp & Hq). exists p. split; [|done].
  eapply elem_of_sublist; [done|apply get_game_paths_sublist].
Qed.

Lemma get_game_paths_agree fs1 fs2 g :
  agree_on (λ q, ∃ p, p ∈ candidate_paths g ∧ p `prefix_of` q) fs1 fs2 →
  get_game_paths fs1 g = get_game_paths fs2 g.
Proof.
  intros H. unfold get_game_paths.
  assert (∀ p, p ∈ candidate_paths g → path_exists fs1 p = path_exists fs2 p)
    as Hex.
  { intros p Hp. apply agree_on_exists. intros q Hq. apply H. eauto. }
  unfold candidate_paths in Hex.
  rewrite !(Hex (game_path g)), !(Hex (compatdata_path g)),
    !(Hex (shadercache_path g)); [done|..];
    repeat first [apply list_elem_of_here | apply list_elem_of_further].
Qed.

Lemma uninstall_game_dry fs g : (uninstall_game fs g true).1 = fs.
Proof.
  unfold uninstall_game.
  pose proof (delete_paths_dry (get_game_paths fs g) fs 0) as H.
  by destruct (delete_paths _ _ _ _) as [[fs' bytes] [e|]].
Qed.

Lemma uninstall_game_dry_live fs0 fsl g :
  separated (candidate_paths g) = true → removable fsl = true →
  agree_on (λ q, ∃ p, p ∈ candidate_paths g ∧ p `prefix_of` q) fsl fs0 →
  (uninstall_game fsl g false).2 = (uninstall_game fs0 g true).2.
Proof.
  intros Hsep Hrm Hagree. unfold uninstall_game.
  rewrite (get_game_paths_agree _ _ _ Hagree).
  destruct (delete_paths_dry_live fs0 (get_game_paths fs0 g) fsl 0)
    as [Hbytes Hexn]; [|done| |].
  { eapply separated_sublist; [apply get_game_paths_sublist|done]. }
  { intros q Hq. by eapply Hagree, below_candidate. }
  destruct (delete_paths false _ _ _) as [[fs1 b1] r1],
    (delete_paths true _ _ _) as [[fs2 b2] r2]. simpl in *. subst.
  by destruct r2.
Qed.

Lemma uninstall_loop_dry games : ∀ fs,
  (uninstall_loop true fs games []).1 = fs.
Proof.
  induction games as [|g games IH]; intros fs; [done|].
  rewrite uninstall_loop_cons. cbn [fst].
  by rewrite uninstall_game_dry, IH.
Qed.

Lemma uninstall_loop_dry_live fs0 games : ∀ fsl,
  separated (games ≫= candidate_paths) = true → removable fsl = true →
  agree_on (λ q, ∃ p, p ∈ games ≫= candidate_paths ∧ p `prefix_of` q)
           fsl fs0 →
  (uninstall_loop false fsl games []).2 = (uninstall_loop true fs0 games []).2.
Proof.
  induction games as [|g games IH]; intros fsl Hsep Hrm Hagree; [done|].
  rewrite bind_cons in Hsep, Hagree.
  apply separated_app in Hsep as (Hg & Hrest & Hcross).
  rewrite !uninstall_loop_cons. cbn [snd]. f_equal.
  - apply uninstall_game_dry_live; [done..|].
    intros q (p & Hp & Hq). apply Hagree. exists p.
    split; [|done]. apply elem_of_app. by left.
  - rewrite uninstall_game_dry.
    pose proof (uninstall_game_removed_only fsl g false) as Hframe.
    apply IH; [done|by eapply removable_removed_only|].
    intros q (p' & Hp' & Hp'q).
    destruct (Hframe q) as [->|[_ (p & Hp & Hpq)%below_candidate]].
    + apply Hagree. exists p'. split; [|done]. apply elem_of_app. by right.
    + by destruct (apart_no_common p p' q (Hcross p p' Hp Hp')).
Qed.




(** ** Sorting by name *)

Lemma elem_of_insert_by_key kg l x :
  x ∈ insert_by_key kg l ↔ x = kg ∨ x ∈ l.
Proof.
  induction l as [|kg' l IH]; simpl.
  { rewrite list_elem_of_singleton, elem_of_nil. tauto. }
  destruct (String.leb kg.1 kg'.1); rewrite !elem_of_cons; [done|].
  rewrite IH. tauto.
Qed.

Lemma insert_by_key_sorted kg l :
  StronglySorted (λ a b, String.le a.1 b.1) l →
  StronglySorted (λ a b, String.le a.1 b.1) (insert_by_key kg l).
Proof.
  induction 1 as [|kg' l Hl IH Hall]; simpl.
  { by repeat constructor. }
  destruct (String.leb kg.1 kg'.1) eqn:Hle.
  - constructor; [by constructor|]. apply Is_true_true in Hle.
    constructor; [done|].
    eapply Forall_impl; [done|]. intros x Hx. simpl in *. by etrans.
  - constructor; [done|]. apply Forall_forall.
    intros x [->|Hx]%elem_of_insert_by_key.
    + destruct (String.leb_total kg.1 kg'.1) as [?|?]; [congruence|].
      by apply Is_true_true.
    + by eapply Forall_forall in Hall.
Qed.

Lemma foldr_insert_sorted keyed :
  StronglySorted (λ a b, String.le a.1 b.1) (foldr insert_by_key [] keyed).
Proof.
  induction keyed as [|kg keyed IH]; [constructor|].
  by apply insert_by_key_sorted.
Qed.

Lemma elem_of_foldr_insert keyed x :
  x ∈ foldr insert_by_key [] keyed ↔ x ∈ keyed.
Proof.
  induction keyed as [|kg keyed IH]; [done|]. simpl.
  by rewrite elem_of_insert_by_key, IH, elem_of_cons.
Qed.

(** Inserting in front of a list whose keys are not smaller. *)
Lemma foldr_insert_id keyed :
  StronglySorted (λ a b, String.le a.1 b.1) keyed →
  foldr insert_by_key [] keyed = keyed.
Proof.
  induction 1 as [|kg keyed Hl IH Hall]; [done|]. simpl. rewrite IH.
  destruct keyed as [|kg' keyed]; [done|]. simpl.
  apply Forall_cons in Hall as [Hle _].
  by apply Is_true_true in Hle as ->.
Qed.

Lemma keyed_spec games keyed :
  mapM (λ g, k ← sort_key g; Some (k, g)) games = Some keyed →
  keyed.*2 = games ∧ mapM sort_key games = Some keyed.*1.
Proof.
  rewrite !mapM_Some. intros H.
  induction H as [|g [k g'] games keyed Hg _ [IH1 IH2]];
    [by split; [|constructor]|].
  destruct (sort_key g) as [k'|] eqn:Hk; simplify_eq/=.
  split; [by f_equal|]. by constructor.
Qed.

Lemma keyed_sort_key (keyed : list (string * SteamGame)) :
  Forall (λ kg, sort_key kg.2 = Some kg.1) keyed →
  mapM sort_key keyed.*2 = Some keyed.*1 ∧
  mapM (λ g, k ← sort_key g; Some (k, g)) keyed.*2 = Some keyed.
Proof.
  intros H. rewrite !mapM_Some.
  induction H as [|[k g] keyed Hkg _ [IH1 IH2]]; [by split; constructor|].
  simpl in *. split; (constructor; [|done]); [done|]. by rewrite Hkg.
Qed.

Lemma keyed_Forall games keyed :
  mapM (λ g, k ← sort_key g; Some (k, g)) games = Some keyed →
  Forall (λ kg, sort_key kg.2 = Some kg.1) keyed.
Proof.
  rewrite mapM_Some. induction 1 as [|g kg games keyed Hg _ IH]; [done|].
  constructor; [|done]. destruct (sort_key g) eqn:Hk; by simplify_eq/=.
Qed.

(** What [sorted] returns: the same games, ordered by key, and a list that
    sorting leaves as it is. *)
Lemma sorted_by_name_spec games out :
  sorted_by_name games = inr out →
  (∀ g, g ∈ out ↔ g ∈ games) ∧
  (∃ keys, mapM sort_key out = Some keys ∧ StronglySorted String.le keys) ∧
  sorted_by_name out = inr out.
Proof.
  unfold sorted_by_name.
  destruct (mapM _ games) as [keyed|] eqn:Hkeyed; [|done].
  intros [= <-]. pose proof (keyed_spec _ _ Hkeyed) as [Hgames _].
  pose proof (foldr_insert_sorted keyed) as Hsorted.
  assert (Forall (λ kg, sort_key kg.2 = Some kg.1)
            (foldr insert_by_key [] keyed)) as Hkeys.
  { apply Forall_forall. intros kg Hkg.
    apply (proj1 (elem_of_foldr_insert _ _)) in Hkg.
    pose proof (keyed_Forall _ _ Hkeyed) as Hall.
    by eapply Forall_forall in Hall. }
  pose proof (keyed_sort_key _ Hkeys) as [Hout1 Hout2].
  split_and!.
  - intros g. rewrite <-Hgames, !list_elem_of_fmap.
    split; intros (kg & -> & Hkg); exists kg; (split; [done|]);
      by apply elem_of_foldr_insert.
  - eexists. split; [done|].
    clear -Hsorted. induction Hsorted as [|kg l Hl IH Hall]; [constructor|].
    rewrite fmap_cons. constructor; [done|]. by apply Forall_fmap.
  - rewrite Hout2. by rewrite foldr_insert_id.
Qed.

(** ** The catalog *)

Lemma mapM_sort_key_Forall games keys :
  mapM sort_key games = Some keys →
  Forall (λ g, ∃ s, name g = VStr s) games.
Proof.
  rewrite mapM_Some. induction 1 as [|g k games keys Hg _ IH]; [done|].
  constructor; [|done]. unfold sort_key in Hg.
  destruct (name g) as [s|]; [by exists s|done].
Qed.

Lemma read_manifest_spec fs library playtime_data manifest g :
  read_manifest fs library playtime_data manifest = Some g →
  library_path g = library ∧ path_exists fs (game_path g) = true ∧
  value_contains "Runtime" (name g) = false ∧
  value_contains "Proton" (name g) = false.
Proof.
  unfold read_manifest. intros H.
  repeat (case_match; try done).
  all: match goal with
       | H : _ || _ = false |- _ => apply orb_false_iff in H as [? ?]
       end.
  all: by simplify_eq/=.
Qed.

Lemma games_loop_spec fs library playtime_data manifests : ∀ acc g,
  g ∈ foldl (λ games manifest,
               match read_manifest fs library playtime_data manifest with
               | Some g => games ++ [g]
               | None => games
               end) acc manifests →
  g ∈ acc ∨
  ∃ manifest, read_manifest fs library playtime_data manifest = Some g.
Proof.
  induction manifests as [|m manifests IH]; intros acc g; simpl; [by left|].
  intros [Hg|?]%IH; [|by right].
  destruct (read_manifest fs library playtime_data m) as [g'|] eqn:Hm;
    [|by left].
  apply elem_of_app in Hg as [?|Hg%list_elem_of_singleton]; [by left|].
  subst g'. right. by exists m.
Qed.

Lemma get_installed_games_spec fs library playtime_data games g :
  get_installed_games fs library playtime_data = inr games → g ∈ games →
  library_path g = library ∧ membership_invariant fs g.
Proof.
  unfold get_installed_games. destruct (negb _).
  { intros [= <-] ?%elem_of_nil. done. }
  intros (Hmem & (keys & Hkeys & _) & _)%sorted_by_name_spec Hg.
  pose proof (mapM_sort_key_Forall _ _ Hkeys) as Hnames.
  eapply Forall_forall in Hnames as [s Hs]; [|done].
  apply Hmem, games_loop_spec in Hg as [?%elem_of_nil|[m Hm]]; [done|].
  apply read_manifest_spec in Hm as (Hlib & Hex & Hrt & Hpr).
  rewrite Hs in Hrt, Hpr. split; [done|]. split; [done|]. by exists s.
Qed.

Lemma all_games_loop_spec fs playtime_data libraries : ∀ acc out g,
  all_games_loop fs playtime_data libraries acc = inr out → g ∈ out →
  g ∈ acc ∨
  ∃ library games,
    library ∈ libraries ∧
    get_installed_games fs library (Some playtime_data) = inr games ∧
    g ∈ games.
Proof.
  induction libraries as [|library libraries IH]; intros acc out g; simpl.
  { intros [= <-] ?. by left. }
  destruct (get_installed_games fs library (Some playtime_data))
    as [e|games] eqn:Hgames; [done|]. simpl.
  intros Hout Hg. destruct (IH _ _ _ Hout Hg) as [Hacc|(l & gs & ? & ? & ?)].
  - apply elem_of_app in Hacc as [?|?]; [by left|]. right.
    exists library, games. split; [apply list_elem_of_here|done].
  - right. exists l, gs. split; [by apply list_elem_of_further|done].
Qed.

(** C6. Every package [get_installed_games] lists belongs to the library
    scanned and satisfies the membership invariant: its payload directory
    exists in the file system the catalog was built from, and its name is a
    string holding neither [Runtime] nor [Proton]. A descriptor yields an
    entry only when these hold. The same is true of every package of the
    whole catalog. *)
Theorem catalog_membership fs :
  (∀ library playtime_data games g,
     get_installed_games fs library playtime_data = inr games → g ∈ games →
     library_path g = library ∧ membership_invariant fs g) ∧
  (∀ library playtime_data manifest g,
     read_manifest fs library playtime_data manifest = Some g →
     path_exists fs (game_path g) = true ∧
     value_contains "Runtime" (name g) = false ∧
     value_contains "Proton" (name g) = false) ∧
  (∀ home games g,
     get_all_installed_games home fs = inr games → g ∈ games →
     membership_invariant fs g).
Proof.
  split_and!.
  - apply get_installed_games_spec.
  - intros library playtime_data manifest g Hg.
    by apply read_manifest_spec in Hg as (_ & ? & ? & ?).
  - intros home games g. unfold get_all_installed_games.
    destruct (find_steam_root home fs) as [root|].
    2:{ intros [= <-] ?%elem_of_nil. done. }
    destruct (get_library_folders fs root) as [e|libraries]; [done|].
    destruct (get_playtime_data fs root) as [e|playtime_data]; [done|].
    simpl.
    destruct (all_games_loop fs playtime_data libraries [])
      as [e|all_games] eqn:Hloop; [done|]. simpl.
    intros (Hmem & _)%sorted_by_name_spec Hg. apply Hmem in Hg.
    destruct (all_games_loop_spec _ _ _ _ _ _ Hloop Hg)
      as [?%elem_of_nil|(library & gs & _ & Hgs & Hin)]; [done|].
    by eapply get_installed_games_spec.
Qed.

Lemma catalog_membership_witness : membership_invariant steam_fs game_bar.
Proof.
  apply (proj2 (proj2 (catalog_membership steam_fs)) steam_home
           [game_apple; game_bar; game_foo]).
  - vm_compute. reflexivity.
  - apply list_elem_of_further, list_elem_of_here.
Defined.

(** C8. The catalog is ordered by the lowered names of its packages, in
    ascending order. It is a function of the home directory and of the file
    system, so building it again from the same file system gives the same
    list; and sorting it again leaves it as it is. *)
Theorem catalog_sorted home fs games :
  get_all_installed_games home fs = inr games →
  (∃ keys, mapM sort_key games = Some keys ∧ StronglySorted String.le keys) ∧
  (∀ games', get_all_installed_games home fs = inr games' → games' = games) ∧
  sorted_by_name games = inr games.
Proof.
  intros Hgames. split_and!.
  - unfold get_all_installed_games in Hgames.
    destruct (find_steam_root home fs) as [root|].
    2:{ injection Hgames as <-. exists []. split; [done|constructor]. }
    destruct (get_library_folders fs root) as [e|libraries]; [done|].
    destruct (get_playtime_data fs root) as [e|playtime_data]; [done|].
    simpl in Hgames.
    destruct (all_games_loop fs playtime_data libraries [])
      as [e|all_games]; [done|]. simpl in Hgames.
    by apply sorted_by_name_spec in Hgames as (_ & ? & _).
  - intros games' Hgames'. congruence.
  - unfold get_all_installed_games in Hgames.
    destruct (find_steam_root home fs) as [root|].
    2:{ by injection Hgames as <-. }
    destruct (get_library_folders fs root) as [e|libraries]; [done|].
    destruct (get_playtime_data fs root) as [e|playtime_data]; [done|].
    simpl in Hgames.
    destruct (all_games_loop fs playtime_data libraries [])
      as [e|all_games]; [done|]. simpl in Hgames.
    by apply sorted_by_name_spec in Hgames as (_ & _ & ?).
Qed.

Lemma catalog_sorted_witness :
  ∃ keys, mapM sort_key [game_apple; game_bar; game_foo] = Some keys ∧
          StronglySorted String.le keys.
Proof.
  apply (catalog_sorted steam_home steam_fs). vm_compute. reflexivity.
Defined.

(** ** Library folders *)

Lemma library_loop_spec fs items : ∀ libraries out,
  library_loop fs items libraries = inr out →
  out = libraries ++
        filter (λ p, path_exists fs p = true)
               (omap (λ kv, section_path kv.2) items).
Proof.
  induction items as [|[key v] items IH]; intros libraries out; simpl.
  { intros [= <-]. by rewrite app_nil_r. }
  destruct v as [s|d]; simpl; [apply IH|].
  destruct (dict_get "path" d) as [[s|d']|]; simpl; [|done|apply IH].
  intros ->%IH. rewrite filter_cons.
  destruct (path_exists fs (mkpath s)).
  - rewrite decide_True by done. by rewrite <-(assoc_L (++)).
  - by rewrite decide_False by done.
Qed.





(** * Further properties *)

(** ** The tokens of malformed text *)

Lemma quoted_body_None s : quote_free s = true → quoted_body s = None.
Proof.
  induction s as [|c s IH]; [done|]. simpl. case_decide; [done|].
  intros Hs. by rewrite IH.
Qed.

Lemma quote_free_open_quote s : quote_free s = true → open_quote s = false.
Proof.
  induction s as [|c s IH]; [done|]. simpl. by case_decide.
Qed.

Lemma finditer_dangling s : quote_free s = true →
  finditer (String dquote s) = finditer s.
Proof. intros Hs. simpl. by rewrite quoted_body_None. Qed.

(** X1. A double quote with no double quote after it is dropped by the
    tokenizer: the braces after it are still tokens, and the text parses as
    it does with that quote deleted. *)
Theorem finditer_unterminated_quote s1 s2 :
  open_quote s1 = false → quote_free s2 = true →
  finditer (s1 +:+ String dquote s2) = finditer s1 ++ finditer s2 ∧
  parse_vdf (s1 +:+ String dquote s2) = parse_vdf (s1 +:+ s2).
Proof.
  intros Hs1 Hs2. unfold parse_vdf.
  by rewrite !finditer_app, finditer_dangling.
Qed.

Lemma finditer_unterminated_quote_witness :
  parse_vdf (quoted "a" +:+ quoted "b" +:+ String dquote "c { }") =
  parse_vdf (quoted "a" +:+ quoted "b" +:+ "c { }").
Proof.
  rewrite <-!string_app_assoc.
  apply (finditer_unterminated_quote (quoted "a" +:+ quoted "b"));
    reflexivity.
Defined.

(** ** Braces without effect *)

Lemma run_closing st n :
  ∃ st', run st (replicate n TClose) = Some st' ∧ heap st' = heap st.
Proof.
  revert st. induction n as [|n IH]; intros st; simpl; [by exists st|].
  case_decide; simpl; [|apply IH].
  destruct (IH {| heap := heap st; stack := tail (stack st);
                  current_key := current_key st |}) as (st' & -> & Hheap).
  by exists st'.
Qed.

Lemma finditer_closing_braces n :
  finditer (closing_braces n) = replicate n TClose.
Proof. induction n as [|n IH]; [done|]. simpl. by rewrite IH. Qed.

(** X3. Closing braces at the end of a text change nothing, however many
    there are and whatever scopes are open: a descriptor cut before its last
    closing braces, or with too many of them, parses as the complete one. *)
Theorem parse_vdf_trailing_braces s n :
  open_quote s = false →
  parse_vdf (s +:+ closing_braces n) = parse_vdf s.
Proof.
  intros Hs. unfold parse_vdf, parse_tokens.
  rewrite finditer_app, finditer_closing_braces, run_app by done.
  destruct (run pinit (finditer s)) as [st|]; [|done]. simpl.
  destruct (run_closing st n) as (st' & -> & Hheap). simpl.
  by rewrite Hheap.
Qed.

Lemma parse_vdf_trailing_braces_witness :
  parse_vdf (quoted "a" +:+ "{" +:+ quoted "b" +:+ quoted "c" +:+ "}}}") =
  parse_vdf (quoted "a" +:+ "{" +:+ quoted "b" +:+ quoted "c").
Proof.
  rewrite <-!string_app_assoc.
  apply (parse_vdf_trailing_braces
           (((quoted "a" +:+ "{") +:+ quoted "b") +:+ quoted "c") 3).
  reflexivity.
Defined.

Lemma finditer_quote_free s :
  quote_free s = true → Forall (λ t, t = TOpen ∨ t = TClose) (finditer s).
Proof.
  induction s as [|c s IH]; [constructor|]. simpl.
  repeat case_decide; try done; intros Hs;
    first [by apply IH | constructor; [by auto | by apply IH]].
Qed.

Lemma run_braces ts : ∀ st,
  Forall (λ t, t = TOpen ∨ t = TClose) ts → current_key st = None →
  ∃ st', run st ts = Some st' ∧ heap st' = heap st.
Proof.
  induction ts as [|t ts IH]; intros st Hts Hkey; simpl; [by exists st|].
  apply Forall_cons in Hts as [[->| ->] Hts]; simpl.
  - rewrite Hkey. simpl. by apply IH.
  - case_decide; simpl; [|by apply IH].
    destruct (IH {| heap := heap st; stack := tail (stack st);
                    current_key := current_key st |} Hts Hkey)
      as (st' & -> & Hheap).
    by exists st'.
Qed.

(** X4. A text without any double quote, whatever braces it holds, parses
    to the empty mapping. *)
Theorem parse_vdf_no_quotes content :
  quote_free content = true → parse_vdf content = Some [].
Proof.
  intros Hq. unfold parse_vdf, parse_tokens.
  destruct (run_braces _ pinit (finditer_quote_free _ Hq) eq_refl)
    as (st & -> & Hheap).
  simpl. by rewrite Hheap.
Qed.

Lemma parse_vdf_no_quotes_witness : parse_vdf "{ } } { { x" = Some [].
Proof. apply parse_vdf_no_quotes. reflexivity. Defined.

(** ** Writing and reading back *)

Lemma dict_set_fresh {V} k (v : V) d :
  k ∉ d.*1 → dict_set k v d = d ++ [(k, v)].
Proof.
  induction d as [|[k' v'] d IH]; [done|]. rewrite fmap_cons. cbn [fst].
  intros [Hne Hk]%not_elem_of_cons. simpl.
  rewrite decide_False by done. by rewrite IH.
Qed.

Lemma value_entry_dict k d : value_entry k (VDict d) = Block k (dict_entries d).
Proof.
  simpl. f_equal. induction d as [|[k' v'] d IH]; [done|].
  unfold dict_entries. rewrite fmap_cons. by rewrite IH.
Qed.

Lemma value_quote_free_dict d :
  value_quote_free (VDict d) =
  forallb (λ kv, quote_free kv.1 && value_quote_free kv.2) d.
Proof.
  simpl. induction d as [|[k v] d IH]; [done|]. simpl. by rewrite IH.
Qed.

Lemma foldl_bind_entries d : ∀ acc,
  Forall (λ kv, entry_binding (value_entry kv.1 kv.2) = kv) d →
  NoDup (acc.*1 ++ d.*1) →
  foldl bind_entry acc (dict_entries d) = acc ++ d.
Proof.
  induction d as [|[k v] d IH]; intros acc Hd Hnd; simpl.
  { by rewrite app_nil_r. }
  apply Forall_cons in Hd as [Hkv Hd]. simpl in Hkv.
  unfold bind_entry at 2. rewrite Hkv. cbn [fst snd].
  rewrite fmap_cons in Hnd. cbn [fst] in Hnd.
  rewrite dict_set_fresh.
  2:{ apply NoDup_app in Hnd as (_ & Hdisj & _). intros Hk.
      apply (Hdisj k Hk), list_elem_of_here. }
  rewrite IH; [by rewrite <-(assoc_L (++))|done|].
  rewrite fmap_app, <-(assoc_L (++)). done.
Qed.

Lemma value_entry_binding v : ∀ k,
  is_mapping v → entry_binding (value_entry k v) = (k, v).
Proof.
  induction v as [s|d IH] using value_ind_nested; intros k Hv; [done|].
  rewrite value_entry_dict. cbn [entry_binding]. do 2 f_equal.
  apply is_mapping_dict in Hv as [Hnd Hall].
  change (foldl bind_entry [] (dict_entries d) = d).
  rewrite foldl_bind_entries; [done| |done].
  apply Forall_forall. intros [k' v'] Hkv. simpl.
  eapply Forall_forall in IH; [|done]. eapply Forall_forall in Hall; [|done].
  by apply IH.
Qed.

Lemma value_entry_quote_free v : ∀ k,
  entry_quote_free (value_entry k v) = quote_free k && value_quote_free v.
Proof.
  induction v as [s|d IH] using value_ind_nested; intros k; [done|].
  rewrite value_entry_dict, value_quote_free_dict. cbn [entry_quote_free].
  f_equal. induction IH as [|[k' v'] d Hkv _ IHd]; [done|].
  unfold dict_entries. rewrite fmap_cons. simpl in *.
  rewrite Hkv. f_equal. apply IHd.
Qed.

(** X2. Writing a mapping as a descriptor and parsing the text gives the
    mapping back, keys in the same order, when no dictionary of the tree
    repeats a key and no string of it holds a double quote: quoted strings are
    copied as they are, whatever other characters they hold. *)
Theorem parse_vdf_round_trip d :
  is_mapping (VDict d) → value_quote_free (VDict d) = true →
  parse_vdf (doc_text (dict_entries d)) = Some d.
Proof.
  intros Hmap Hq. unfold parse_vdf. rewrite finditer_doc_text.
  - rewrite parse_tokens_zipper, zrun_doc by done. unfold zresult. simpl.
    apply is_mapping_dict in Hmap as [Hnd Hall].
    rewrite foldl_bind_entries; [done| |done].
    apply Forall_forall. intros [k v] Hkv. simpl.
    eapply Forall_forall in Hall; [|done]. by apply value_entry_binding.
  - rewrite value_quote_free_dict in Hq. unfold dict_entries.
    rewrite forallb_forall in Hq. apply forallb_forall.
    intros e [[k v] [-> Hkv]]%list_elem_of_In%list_elem_of_fmap.
    rewrite value_entry_quote_free. by apply Hq, list_elem_of_In.
Qed.

Lemma parse_vdf_round_trip_witness :
  parse_vdf (doc_text (dict_entries
    [("AppState", VDict [("appid", VStr "10"); ("name", VStr "a {b} \ c");
                         ("UserConfig", VDict [])])])) =
  Some [("AppState", VDict [("appid", VStr "10"); ("name", VStr "a {b} \ c");
                            ("UserConfig", VDict [])])].
Proof.
  apply parse_vdf_round_trip.
  - simpl. repeat split; apply (bool_decide_unpack _); vm_compute; exact I.
  - reflexivity.
Defined.

(** ** The paths of a package *)

Lemma segments_slash_free s : slash_free s = true → segments s = [s].
Proof.
  induction s as [|c s IH]; [done|]. simpl.
  intros [Hc Hs]%andb_true_iff. apply negb_true_iff, bool_decide_eq_false in Hc.
  rewrite decide_False by done. by rewrite IH.
Qed.

Lemma joinpath_plain p s : plain_name s = true → p </> s = p ++ [s].
Proof.
  unfold plain_name. rewrite !andb_true_iff, !bool_decide_eq_true.
  intros [[Hs Hne] Hdot]. unfold joinpath, path_parts.
  rewrite segments_slash_free by done.
  assert (is_absolute s = false) as ->.
  { destruct s as [|c s]; [done|]. simpl in *.
    apply andb_true_iff in Hs as [Hc _]. by apply negb_true_iff in Hc. }
  rewrite filter_cons, decide_True by done. done.
Qed.

Lemma slash_free_app s t :
  slash_free (s +:+ t) = slash_free s && slash_free t.
Proof.
  induction s as [|c s IH]; [done|]. rewrite string_app_cons. simpl.
  by rewrite IH, andb_assoc.
Qed.

Lemma manifest_name_plain a :
  slash_free a = true → plain_name ("appmanifest_" +:+ a +:+ ".acf") = true.
Proof.
  intros Ha. unfold plain_name. rewrite !slash_free_app, Ha.
  rewrite string_app_cons. done.
Qed.

Lemma plain_name_slash_free s : plain_name s = true → slash_free s = true.
Proof. unfold plain_name. by intros [[? _]%andb_true_iff _]%andb_true_iff. Qed.

Lemma package_paths g :
  plain_name (appid g) = true → plain_name (install_dir g) = true →
  manifest_path g =
    library_path g ++ ["steamapps"; "appmanifest_" +:+ appid g +:+ ".acf"] ∧
  game_path g = library_path g ++ ["steamapps"; "common"; install_dir g] ∧
  compatdata_path g = library_path g ++ ["steamapps"; "compatdata"; appid g] ∧
  shadercache_path g =
    library_path g ++ ["steamapps"; "shadercache"; appid g].
Proof.
  intros Ha Hd.
  unfold manifest_path, game_path, compatdata_path, shadercache_path.
  rewrite !(joinpath_plain _ (appid g)), !(joinpath_plain _ (install_dir g)),
    (joinpath_plain _ (_ +:+ _)), !(joinpath_plain _ "steamapps"),
    (joinpath_plain _ "common"), (joinpath_plain _ "compatdata"),
    (joinpath_plain _ "shadercache");
    [|done || by apply manifest_name_plain, plain_name_slash_free..].
  by rewrite <-!(assoc_L (++)).
Qed.

Lemma list_ascii_app s t :
  String.list_ascii_of_string (s +:+ t) =
  String.list_ascii_of_string s ++ String.list_ascii_of_string t.
Proof.
  induction s as [|c s IH]; [done|]. rewrite string_app_cons. simpl.
  by rewrite IH.
Qed.

Lemma string_app_inj_r s1 s2 t : s1 +:+ t = s2 +:+ t → s1 = s2.
Proof.
  intros H. apply (f_equal String.list_ascii_of_string) in H.
  rewrite !list_ascii_app in H. apply app_inv_tail in H.
  apply (f_equal String.string_of_list_ascii) in H.
  by rewrite !String.string_of_list_ascii_of_string in H.
Qed.

Lemma manifest_name_inj a1 a2 :
  "appmanifest_" +:+ a1 +:+ ".acf" = "appmanifest_" +:+ a2 +:+ ".acf" →
  a1 = a2.
Proof. by intros ?%String.app_inj%string_app_inj_r. Qed.

Lemma apart_app l xs ys : apart xs ys → apart (l ++ xs) (l ++ ys).
Proof. intros [H1 H2]. split; intros ?%prefix_app_inv; auto. Qed.

Lemma manifest_name_head a :
  ∃ rest, "appmanifest_" +:+ a +:+ ".acf" = String "a" rest.
Proof. eexists. by rewrite string_app_cons. Qed.

Ltac apart_parts :=
  apply apart_app; split; intros [k Hk]; simplify_eq/=;
  repeat match goal with
    | H : ?a +:+ ".acf" = ?b +:+ ".acf" |- _ =>
        apply string_app_inj_r in H; congruence
    | H : _ = "appmanifest_" +:+ ?a +:+ ".acf" |- _ =>
        destruct (manifest_name_head a) as [? Heq]; rewrite Heq in H;
        discriminate H
    | H : "appmanifest_" +:+ ?a +:+ ".acf" = _ |- _ =>
        first [ apply manifest_name_inj in H; congruence
              | destruct (manifest_name_head a) as [? Heq]; rewrite Heq in H;
                discriminate H ]
    end; try congruence.

Lemma candidate_paths_within g :
  plain_name (appid g) = true → plain_name (install_dir g) = true →
  separated (candidate_paths g) = true.
Proof.
  intros Ha Hd. destruct (package_paths g Ha Hd) as (Hm & Hg & Hc & Hs).
  unfold candidate_paths. rewrite Hm, Hg, Hc, Hs.
  repeat (apply separated_cons; split; [repeat constructor|]); try done;
    apart_parts.
Qed.

Lemma candidate_paths_apart g1 g2 p q :
  library_path g1 = library_path g2 →
  plain_name (appid g1) = true → plain_name (install_dir g1) = true →
  plain_name (appid g2) = true → plain_name (install_dir g2) = true →
  appid g1 ≠ appid g2 → install_dir g1 ≠ install_dir g2 →
  p ∈ candidate_paths g1 → q ∈ candidate_paths g2 → apart p q.
Proof.
  intros Hlib Ha1 Hd1 Ha2 Hd2 Ha Hd.
  destruct (package_paths g1 Ha1 Hd1) as (Hm1 & Hg1 & Hc1 & Hs1).
  destruct (package_paths g2 Ha2 Hd2) as (Hm2 & Hg2 & Hc2 & Hs2).
  unfold candidate_paths. rewrite Hm1, Hg1, Hc1, Hs1, Hm2, Hg2, Hc2, Hs2, Hlib.
  rewrite !elem_of_cons, !elem_of_nil.
  intros [->|[->|[->|[->|[]]]]] [->|[->|[->|[->|[]]]]]; apart_parts.
Qed.

Lemma separated_app_2 l1 l2 :
  separated l1 = true → separated l2 = true →
  (∀ p q, p ∈ l1 → q ∈ l2 → apart p q) → separated (l1 ++ l2) = true.
Proof.
  induction l1 as [|p l1 IH]; [done|]. rewrite <-app_comm_cons.
  rewrite !separated_cons. intros [Hp Hl1] Hl2 Hcross. split.
  - apply Forall_app. split; [done|]. apply Forall_forall. intros q Hq.
    apply Hcross; [apply list_elem_of_here|done].
  - apply IH; [done..|]. intros p' q Hp' Hq.
    apply Hcross; [by apply list_elem_of_further|done].
Qed.

Lemma batch_separated library games :
  Forall (λ g, library_path g = library ∧ plain_name (appid g) = true ∧
               plain_name (install_dir g) = true) games →
  NoDup (appid <$> games) → NoDup (install_dir <$> games) →
  separated (games ≫= candidate_paths) = true.
Proof.
  induction 1 as [|g games (Hlib & Ha & Hd) Hall IH]; [done|].
  rewrite !fmap_cons, !NoDup_cons, bind_cons.
  intros [Hga Hnda] [Hgd Hndd]. apply separated_app_2.
  - by apply candidate_paths_within.
  - by apply IH.
  - intros p q Hp (g' & Hq & Hg')%list_elem_of_bind.
    eapply Forall_forall in Hall as (Hlib' & Ha' & Hd'); [|done].
    eapply (candidate_paths_apart g g'); try done; [congruence|..].
    + intros Heq. apply Hga. rewrite Heq. by apply list_elem_of_fmap_2.
    + intros Heq. apply Hgd. rewrite Heq. by apply list_elem_of_fmap_2.
Qed.



Lemma uninstall_games_dry_live fs games :
  separated (games ≫= candidate_paths) = true → removable fs = true →
  (uninstall_games fs games true).2 = (uninstall_games fs games false).2.
Proof.
  intros Hsep Hrm. unfold uninstall_games.
  pose proof (uninstall_loop_dry_live fs games fs Hsep Hrm
                (λ q _, eq_refl)) as H.
  destruct (uninstall_loop true fs games []) as [fs1 rs1],
    (uninstall_loop false fs games []) as [fs2 rs2]. simpl in *.
  by subst.
Qed.



(** ** The size of a directory *)

Lemma sum_sizes_Permutation l1 l2 : l1 ≡ₚ l2 → sum_sizes l1 = sum_sizes l2.
Proof.
  unfold sum_sizes. induction 1 as [|x l1 l2 _ IH|x y l|l1 l2 l3 _ IH1 _ IH2];
    simpl; [done|by rewrite IH|lia|congruence].
Qed.

Lemma agree_on_insert fs p q n :
  ¬ p `prefix_of` q → agree_on (λ q', p `prefix_of` q') (<[q:=n]> fs) fs.
Proof. intros Hq q' Hq'. apply lookup_insert_ne. by intros ->. Qed.

Lemma agree_on_delete fs p q :
  ¬ p `prefix_of` q → agree_on (λ q', p `prefix_of` q') (delete q fs) fs.
Proof. intros Hq q' Hq'. apply lookup_delete_ne. by intros ->. Qed.

Lemma agree_on_get_dir_size fs1 fs2 p :
  agree_on (λ q, p `prefix_of` q) fs1 fs2 →
  get_dir_size fs1 p = get_dir_size fs2 p.
Proof.
  intros H. unfold get_dir_size.
  by rewrite (agree_on_exists _ _ _ H), (agree_on_descendants _ _ _ H).
Qed.



Lemma get_dir_size_insert_fresh fs p q n :
  path_exists fs p = true → p `prefix_of` q → q ≠ p → fs !! q = None →
  get_dir_size (<[q:=n]> fs) p = get_dir_size fs p + entry_size n.
Proof.
  intros Hex Hpq Hne Hq. unfold get_dir_size.
  assert (path_exists (<[q:=n]> fs) p = true) as ->.
  { apply bool_decide_eq_true. rewrite lookup_insert_ne by done.
    by apply bool_decide_eq_true in Hex. }
  rewrite Hex. simpl. unfold descendants.
  rewrite map_filter_insert_True by done.
  rewrite (sum_sizes_Permutation _ ((q, n) :: map_to_list
             (filter (λ qn, p `prefix_of` qn.1 ∧ qn.1 ≠ p) fs))).
  - unfold sum_sizes. simpl. lia.
  - apply map_to_list_insert. by apply map_lookup_filter_None_2; left.
Qed.



(** ** After a successful uninstall *)

Lemma removed_only_None P fs fs' q :
  removed_only P fs fs' → fs !! q = None → fs' !! q = None.
Proof. intros H Hq. destruct (H q) as [->|[? _]]; done. Qed.

Lemma removed_only_exists P fs fs' q :
  removed_only P fs fs' → path_exists fs' q = true → path_exists fs q = true.
Proof.
  intros H Hq. apply bool_decide_eq_true in Hq as [n Hn].
  apply bool_decide_eq_true. destruct (H q) as [Heq|[? _]]; [|congruence].
  rewrite <-Heq. by exists n.
Qed.

Lemma remove_entries_gone l : ∀ fs q,
  (remove_entries l fs).2 = None → q ∈ l.*1 →
  (remove_entries l fs).1 !! q = None.
Proof.
  induction l as [|[p n] l IH]; intros fs q; simpl.
  { by intros _ ?%elem_of_nil. }
  destruct (remove_error n); [done|].
  intros Hok [->|Hq]%elem_of_cons; [|by apply IH].
  eapply removed_only_None; [apply remove_entries_frame|].
  apply lookup_delete_eq.
Qed.

Lemma remove_gone fs p :
  path_exists fs p = true → (remove fs p).2 = None →
  (remove fs p).1 !! p = None.
Proof.
  intros [n Hn]%bool_decide_eq_true.
  unfold remove, is_file, unlink, rmtree. rewrite Hn.
  destruct n as [[content size|] ? [e|] ?]; simpl; try done.
  - intros _. apply lookup_delete_eq.
  - intros Hok. apply remove_entries_gone; [done|].
    rewrite fmap_app. apply elem_of_app. right. apply list_elem_of_here.
  - intros Hok. apply remove_entries_gone; [done|].
    rewrite fmap_app. apply elem_of_app. right. apply list_elem_of_here.
Qed.

Lemma delete_path_gone fs bytes p fs' bytes' :
  delete_path false fs bytes p = (fs', bytes', None) → fs' !! p = None.
Proof.
  unfold delete_path. destruct (path_exists fs p) eqn:Hex; simpl.
  2:{ intros [= <- _]. apply bool_decide_eq_false in Hex.
      by apply eq_None_not_Some. }
  destruct (measure fs p) as [e|size]; [done|].
  pose proof (remove_gone fs p Hex) as Hgone.
  destruct (remove fs p) as [fs1 [e|]]; [done|].
  intros [= <- _]. by apply Hgone.
Qed.

Lemma delete_paths_gone paths : ∀ fs bytes fs' bytes' p,
  delete_paths false fs bytes paths = (fs', bytes', None) →
  p ∈ paths.*1 → fs' !! p = None.
Proof.
  induction paths as [|[r desc] paths IH]; intros fs bytes fs' bytes' p; simpl.
  { by intros _ ?%elem_of_nil. }
  destruct (delete_path false fs bytes r) as [[fs1 bytes1] [e|]] eqn:Hstep;
    [done|].
  intros Hrest [->|Hp]%elem_of_cons; [|by eapply IH].
  pose proof (delete_paths_frame false paths fs1 bytes1) as Hframe.
  rewrite Hrest in Hframe. simpl in Hframe.
  eapply removed_only_None; [done|]. by eapply delete_path_gone.
Qed.

Lemma uninstall_game_gone fs g p :
  success (uninstall_game fs g false).2 = true →
  p ∈ (get_game_paths fs g).*1 → (uninstall_game fs g false).1 !! p = None.
Proof.
  unfold uninstall_game.
  destruct (delete_paths false fs 0 (get_game_paths fs g))
    as [[fs' bytes] [e|]] eqn:Hloop; [done|].
  intros _ Hp. simpl. by eapply delete_paths_gone.
Qed.

Lemma uninstall_game_paths_gone fs g :
  success (uninstall_game fs g false).2 = true →
  path_exists (uninstall_game fs g false).1 (manifest_path g) = false ∧
  ∀ p, p ∈ (get_game_paths fs g).*1 →
       path_exists (uninstall_game fs g false).1 p = false.
Proof.
  intros Hok.
  assert (∀ p, p ∈ (get_game_paths fs g).*1 →
               path_exists (uninstall_game fs g false).1 p = false) as H.
  { intros p Hp. apply bool_decide_eq_false.
    rewrite (uninstall_game_gone fs g p Hok Hp). by intros [? ?]. }
  split; [|done]. apply H.
  unfold get_game_paths.
  destruct (path_exists fs (game_path g)),
    (has_compatdata g && path_exists fs (compatdata_path g)),
    (has_shadercache g && path_exists fs (shadercache_path g));
    cbn [app fmap list_fmap fst]; apply list_elem_of_here.
Qed.

(** X9. After a live [uninstall_game] that reports success, none of the
    planned paths exists any more; in particular the descriptor file of the
    package is gone. *)
Theorem uninstall_game_success_removes fs g :
  success (uninstall_game fs g false).2 = true →
  path_exists (uninstall_game fs g false).1 (manifest_path g) = false ∧
  ∀ p, p ∈ (get_game_paths fs g).*1 →
       path_exists (uninstall_game fs g false).1 p = false.
Proof. apply uninstall_game_paths_gone. Qed.

Lemma uninstall_game_success_removes_witness :
  path_exists (uninstall_game steam_fs game_bar false).1
              (manifest_path game_bar) = false.
Proof.
  apply (proj1 (uninstall_game_success_removes steam_fs game_bar
                  ltac:(vm_compute; reflexivity))).
Defined.

Lemma get_game_paths_after fs g :
  success (uninstall_game fs g false).2 = true →
  get_game_paths (uninstall_game fs g false).1 g =
  [(manifest_path g, "manifest")].
Proof.
  intros Hok.
  pose proof (uninstall_game_removed_only fs g false) as Hframe.
  assert (∀ p desc, (p, desc) ∈ get_game_paths fs g →
            path_exists (uninstall_game fs g false).1 p = false) as Hgone.
  { intros p desc Hp. apply bool_decide_eq_false.
    rewrite (uninstall_game_gone fs g p Hok); [by intros [? ?]|].
    apply list_elem_of_fmap. by exists (p, desc). }
  set (fs' := (uninstall_game fs g false).1) in *.
  assert (path_exists fs' (game_path g) = false) as Hg.
  { destruct (path_exists fs' (game_path g)) eqn:Hex; [|done].
    apply (removed_only_exists _ _ _ _ Hframe) in Hex as Hex0.
    rewrite <-Hex. apply (Hgone _ "game files").
    unfold get_game_paths. rewrite Hex0.
    destruct (has_compatdata g && path_exists fs (compatdata_path g)),
      (has_shadercache g && path_exists fs (shadercache_path g));
      cbn [app]; apply list_elem_of_further, list_elem_of_here. }
  assert (has_compatdata g && path_exists fs' (compatdata_path g) = false)
    as Hc.
  { destruct (has_compatdata g) eqn:Hflag; [|done]. simpl.
    destruct (path_exists fs' (compatdata_path g)) eqn:Hex; [|done].
    apply (removed_only_exists _ _ _ _ Hframe) in Hex as Hex0.
    rewrite <-Hex. apply (Hgone _ "Proton data").
    unfold get_game_paths. rewrite Hflag, Hex0.
    destruct (path_exists fs (game_path g)),
      (has_shadercache g && path_exists fs (shadercache_path g));
      cbn [app andb];
      repeat first [apply list_elem_of_here | apply list_elem_of_further]. }
  assert (has_shadercache g && path_exists fs' (shadercache_path g) = false)
    as Hs.
  { destruct (has_shadercache g) eqn:Hflag; [|done]. simpl.
    destruct (path_exists fs' (shadercache_path g)) eqn:Hex; [|done].
    apply (removed_only_exists _ _ _ _ Hframe) in Hex as Hex0.
    rewrite <-Hex. apply (Hgone _ "shader cache").
    unfold get_game_paths. rewrite Hflag, Hex0.
    destruct (path_exists fs (game_path g)),
      (has_compatdata g && path_exists fs (compatdata_path g));
      cbn [app andb];
      repeat first [apply list_elem_of_here | apply list_elem_of_further]. }
  unfold get_game_paths. by rewrite Hg, Hc, Hs.
Qed.

(** X10. Uninstalling again a package whose live uninstall reported
    success changes nothing: the second run reports success, frees no byte
    and leaves the file system as the first run left it. *)
Theorem uninstall_game_again fs g :
  success (uninstall_game fs g false).2 = true →
  uninstall_game (uninstall_game fs g false).1 g false =
  ((uninstall_game fs g false).1,
   {| game := g; success := true; error := None; bytes_freed := 0 |}).
Proof.
  intros Hok.
  pose proof (proj1 (uninstall_game_paths_gone fs g Hok)) as Hm.
  unfold uninstall_game at 1. rewrite (get_game_paths_after fs g Hok).
  simpl. unfold delete_path. by rewrite Hm.
Qed.

Lemma uninstall_game_again_witness :
  (uninstall_game (uninstall_game steam_fs game_bar false).1 game_bar false).2
  = {| game := game_bar; success := true; error := None; bytes_freed := 0 |}.
Proof.
  rewrite (uninstall_game_again steam_fs game_bar
             ltac:(vm_compute; reflexivity)).
  reflexivity.
Defined.

(** ** Batches *)

Lemma uninstall_loop_app dry_run games1 games2 fs :
  uninstall_loop dry_run fs (games1 ++ games2) [] =
  ((uninstall_loop dry_run (uninstall_loop dry_run fs games1 []).1
                   games2 []).1,
   (uninstall_loop dry_run fs games1 []).2 ++
   (uninstall_loop dry_run (uninstall_loop dry_run fs games1 []).1
                   games2 []).2).
Proof.
  revert fs. induction games1 as [|g games1 IH]; intros fs.
  { simpl. by destruct (uninstall_loop dry_run fs games2 []). }
  rewrite <-app_comm_cons, !uninstall_loop_cons, IH. done.
Qed.

Lemma uninstall_games_fst fs games dry_run :
  (uninstall_games fs games dry_run).1 = (uninstall_loop dry_run fs games []).1.
Proof.
  unfold uninstall_games. by destruct (uninstall_loop dry_run fs games []).
Qed.

Lemma uninstall_games_results fs games dry_run :
  results (uninstall_games fs games dry_run).2
  = (uninstall_loop dry_run fs games []).2.
Proof.
  unfold uninstall_games. by destruct (uninstall_loop dry_run fs games []).
Qed.

Lemma uninstall_games_bytes fs games dry_run :
  total_bytes_freed (uninstall_games fs games dry_run).2
  = foldr (λ r n, bytes_freed r + n) 0 (uninstall_loop dry_run fs games []).2.
Proof.
  unfold uninstall_games. by destruct (uninstall_loop dry_run fs games []).
Qed.

(** X11. A batch over two lists one after the other is the batch over the
    first list followed by the batch over the second list on the file system
    the first one left: the results are concatenated, the bytes freed add up,
    and the final file system is that of the second batch. *)
Theorem uninstall_games_app fs games1 games2 dry_run :
  let first := uninstall_games fs games1 dry_run in
  let second := uninstall_games first.1 games2 dry_run in
  let whole := uninstall_games fs (games1 ++ games2) dry_run in
  whole.1 = second.1 ∧
  results whole.2 = results first.2 ++ results second.2 ∧
  total_bytes_freed whole.2
    = total_bytes_freed first.2 + total_bytes_freed second.2.
Proof.
  simpl. rewrite !uninstall_games_fst, !uninstall_games_results,
    !uninstall_games_bytes, uninstall_loop_app. simpl.
  split_and!; [done..|].
  generalize (uninstall_loop dry_run fs games1 []).2 as rs1.
  intros rs1. induction rs1 as [|r rs1 IH]; simpl; [done|]. rewrite IH. lia.
Qed.

Lemma uninstall_loop_removed_only dry_run games : ∀ fs,
  removed_only (λ q, ∃ p, p ∈ games ≫= candidate_paths ∧ p `prefix_of` q)
               fs (uninstall_loop dry_run fs games []).1.
Proof.
  induction games as [|g games IH]; intros fs.
  { apply removed_only_refl. }
  rewrite uninstall_loop_cons, bind_cons. cbn [fst].
  eapply removed_only_mono;
    [|exact (removed_only_trans _ _ _ _ _
               (uninstall_game_removed_only fs g dry_run) (IH _))].
  intros q [(p & Hp & Hq)%below_candidate|(p & Hp & Hq)];
    exists p; (split; [|done]); apply elem_of_app; auto.
Qed.


Lemma length_filter_all {A} (P : A → Prop) `{!∀ x, Decision (P x)} l :
  length (filter P l) = length l ↔ Forall P l.
Proof.
  induction l as [|x l IH]; [by split; [constructor|]|].
  rewrite filter_cons. pose proof (length_filter P l) as Hle.
  case_decide; simpl.
  - rewrite Forall_cons. split; [intros [= Hlen]|intros [_ Hall]].
    + split; [done|]. by apply IH.
    + f_equal. by apply IH.
  - split; [lia|]. by intros [? _]%Forall_cons.
Qed.

(** X13. [all_successful] holds of the summary of a batch exactly when
    every result of the batch has [success] set. *)
Theorem all_successful_iff fs games dry_run :
  all_successful (uninstall_games fs games dry_run).2 = true ↔
  Forall (λ r, success r = true) (results (uninstall_games fs games dry_run).2).
Proof.
  unfold all_successful, uninstall_games.
  pose proof (uninstall_loop_games dry_run games fs) as Hgames.
  destruct (uninstall_loop dry_run fs games []) as [fs' rs]. simpl in *.
  rewrite bool_decide_eq_true,
    <-(length_filter_all (λ r, success r = true) rs).
  assert (length games = length rs) as -> by (by rewrite <-Hgames, length_fmap).
  assert (foldr (λ r n, if success r then 1 + n else n) 0 rs
          = Z.of_nat (length (filter (λ r, success r = true) rs))) as ->.
  { clear. induction rs as [|r rs IH]; [done|]. simpl.
    rewrite filter_cons. destruct (success r); simpl; lia. }
  lia.
Qed.

(** ** The estimate *)

Lemma calculate_total_size_foldl fs games : ∀ total,
  foldl (λ total g,
           let total := total + size_on_disk g in
           let total :=
             if has_compatdata g
             then total + get_dir_size fs (compatdata_path g) else total in
           let total :=
             if has_shadercache g
             then total + get_dir_size fs (shadercache_path g) else total in
           total) total games
  = total + foldr (λ g n, estimate fs g + n) 0 games.
Proof.
  induction games as [|g games IH]; intros total; simpl; [lia|].
  rewrite IH. unfold estimate.
  destruct (has_compatdata g), (has_shadercache g); lia.
Qed.

Lemma calculate_total_size_sum fs games :
  calculate_total_size fs games = foldr (λ g n, estimate fs g + n) 0 games.
Proof.
  unfold calculate_total_size. rewrite calculate_total_size_foldl. lia.
Qed.

(** X14. The estimate of a selection is the sum of the estimates of its
    packages: it adds up over concatenated lists, does not depend on the
    order of the packages, and for packages without auxiliary directories it
    is the sum of the sizes their descriptors report, whatever is on disk. *)
Theorem calculate_total_size_additive fs games1 games2 :
  calculate_total_size fs (games1 ++ games2)
    = calculate_total_size fs games1 + calculate_total_size fs games2 ∧
  (games1 ≡ₚ games2 →
   calculate_total_size fs games1 = calculate_total_size fs games2) ∧
  (Forall (λ g, has_compatdata g = false ∧ has_shadercache g = false) games1 →
   calculate_total_size fs games1 = foldr Z.add 0 (size_on_disk <$> games1)).
Proof.
  rewrite !calculate_total_size_sum. split_and!.
  - rewrite foldr_app.
    generalize (foldr (λ g n, estimate fs g + n) 0 games2) as b. intros b.
    induction games1 as [|g games1 IH]; simpl; [done|]. rewrite IH. lia.
  - induction 1 as [|g l1 l2 _ IH|g1 g2 l|l1 l2 l3 _ IH1 _ IH2]; simpl;
      [done|by rewrite IH|lia|congruence].
  - induction 1 as [|g games [Hc Hs] _ IH]; [done|].
    rewrite fmap_cons. cbn [foldr].
    rewrite IH. unfold estimate. rewrite Hc, Hs. lia.
Qed.

Lemma calculate_total_size_additive_witness :
  calculate_total_size steam_fs [game_foo; game_bar] =
  calculate_total_size steam_fs [game_bar; game_foo].
Proof.
  apply (proj1 (proj2 (calculate_total_size_additive steam_fs
                         [game_foo; game_bar] [game_bar; game_foo]))).
  apply Permutation_swap.
Defined.

Lemma delete_paths_dry_bytes paths : ∀ fs bytes,
  (delete_paths true fs bytes paths).2 = None →
  (delete_paths true fs bytes paths).1.2
  = bytes + foldr (λ p n, measured fs p + n) 0 paths.*1.
Proof.
  induction paths as [|[p desc] paths IH]; intros fs bytes; [simpl; lia|].
  rewrite fmap_cons. cbn [delete_paths foldr fst]. unfold delete_path.
  destruct (path_exists fs p) eqn:Hex; cbn [negb].
  - destruct (measure fs p) as [e|size] eqn:Hmeas; [done|].
    replace (measured fs p) with size
      by (unfold measured; by rewrite Hex, Hmeas).
    intros Hok. rewrite IH by done. lia.
  - replace (measured fs p) with 0 by (unfold measured; by rewrite Hex).
    intros Hok. rewrite IH by done. lia.
Qed.

(** X15. A dry run that succeeds counts the measured sizes of the
    descriptor file and of the payload, and for the auxiliary directories
    what [calculate_total_size] counts for them; the estimate differs from it
    only by taking the size the descriptor reports in place of the first
    two. The auxiliary paths are taken not to be plain files. *)
Theorem dry_run_against_estimate fs g :
  success (uninstall_game fs g true).2 = true →
  is_file fs (compatdata_path g) = false →
  is_file fs (shadercache_path g) = false →
  bytes_freed (uninstall_game fs g true).2 + size_on_disk g
  = measured fs (manifest_path g) + measured fs (game_path g)
    + calculate_total_size fs [g].
Proof.
  intros Hok Hc Hs. unfold uninstall_game in *.
  pose proof (delete_paths_dry_bytes (get_game_paths fs g) fs 0) as Hbytes.
  destruct (delete_paths true fs 0 (get_game_paths fs g))
    as [[fs' bytes] [e|]]; [done|]. simpl in *.
  rewrite Hbytes by done. rewrite calculate_total_size_sum. simpl.
  unfold estimate, get_game_paths.
  assert (∀ p, is_file fs p = false →
               measured fs p = get_dir_size fs p) as Haux.
  { intros p Hp. unfold measured, measure, get_dir_size. rewrite Hp.
    by destruct (path_exists fs p). }
  assert (∀ p, path_exists fs p = false → measured fs p = 0) as Hnone.
  { intros p Hp. unfold measured. by rewrite Hp. }
  assert (∀ p, path_exists fs p = false → get_dir_size fs p = 0) as Hzero.
  { intros p Hp. unfold get_dir_size. by rewrite Hp. }
  destruct (path_exists fs (game_path g)) eqn:Hg,
    (has_compatdata g), (path_exists fs (compatdata_path g)) eqn:Hce,
    (has_shadercache g), (path_exists fs (shadercache_path g)) eqn:Hse;
    cbn [andb app fmap list_fmap fst foldr];
    rewrite ?(Haux _ Hc), ?(Haux _ Hs), ?(Hnone _ Hg), ?(Hzero _ Hce),
      ?(Hzero _ Hse); lia.
Qed.

Lemma dry_run_against_estimate_witness :
  bytes_freed (uninstall_game steam_fs game_bar true).2
  + size_on_disk game_bar
  = measured steam_fs (manifest_path game_bar)
    + measured steam_fs (game_path game_bar)
    + calculate_total_size steam_fs [game_bar].
Proof.
  apply (dry_run_against_estimate steam_fs game_bar); vm_compute; reflexivity.
Defined.

(** ** Locating the installation *)

Lemma head_filter_spec {A} (P : A → Prop) `{!∀ x, Decision (P x)} l :
  match head (filter P l) with
  | Some x => ∃ l1 l2, l = l1 ++ x :: l2 ∧ P x ∧ Forall (λ y, ¬ P y) l1
  | None => Forall (λ y, ¬ P y) l
  end.
Proof.
  induction l as [|y l IH]; [constructor|]. rewrite filter_cons.
  case_decide; simpl.
  - exists [], l. by split_and!.
  - destruct (head (filter P l)) as [x|].
    + destruct IH as (l1 & l2 & -> & Hx & Hl1).
      exists (y :: l1), l2. split_and!; [done..|by constructor].
    + by constructor.
Qed.

(** X16. [find_steam_root] returns the first of its three candidates, in
    the order [.local/share/Steam], [.steam/steam],
    [.steam/debian-installation], that exists and holds a [steamapps] entry:
    the candidates before the one returned do not qualify, and nothing is
    returned only when none qualifies. *)
Theorem find_steam_root_first home fs :
  let candidates :=
    [home </> ".local" </> "share" </> "Steam";
     home </> ".steam" </> "steam";
     home </> ".steam" </> "debian-installation"] in
  let installed root :=
    path_exists fs root = true ∧
    path_exists fs (root </> "steamapps") = true in
  match find_steam_root home fs with
  | Some root =>
      ∃ before after,
        candidates = before ++ root :: after ∧ installed root ∧
        Forall (λ c, ¬ installed c) before
  | None => Forall (λ c, ¬ installed c) candidates
  end.
Proof.
  intros candidates installed. unfold find_steam_root.
  apply (head_filter_spec installed candidates).
Qed.

(** ** What the catalog records *)

Lemma read_manifest_flags fs library playtime_data manifest g :
  read_manifest fs library playtime_data manifest = Some g →
  has_compatdata g = path_exists fs (compatdata_path g) ∧
  has_shadercache g = path_exists fs (shadercache_path g) ∧
  playtime_minutes g =
    match playtime_data with
    | Some ((_ :: _) as recorded) => default 0 (dict_get (appid g) recorded)
    | _ => 0
    end.
Proof.
  unfold read_manifest. intros H.
  repeat (case_match; try done); by simplify_eq/=.
Qed.

Lemma get_installed_games_from fs library playtime_data games g :
  get_installed_games fs library playtime_data = inr games → g ∈ games →
  ∃ manifest, read_manifest fs library playtime_data manifest = Some g.
Proof.
  unfold get_installed_games. destruct (negb _).
  { intros [= <-] ?%elem_of_nil. done. }
  intros (Hmem & _)%sorted_by_name_spec Hg.
  by apply Hmem, games_loop_spec in Hg as [?%elem_of_nil|?].
Qed.

(** X17. The presence flags of a listed package are what the file system
    shows when the catalog is built: [has_compatdata] and [has_shadercache]
    tell whether the compatibility and shader cache directories of the
    package exist, and [playtime_minutes] is the recorded play time of its
    identifier, zero when there is none. *)
Theorem catalog_flags fs library playtime_data games g :
  get_installed_games fs library playtime_data = inr games → g ∈ games →
  has_compatdata g = path_exists fs (compatdata_path g) ∧
  has_shadercache g = path_exists fs (shadercache_path g) ∧
  playtime_minutes g =
    match playtime_data with
    | Some ((_ :: _) as recorded) => default 0 (dict_get (appid g) recorded)
    | _ => 0
    end.
Proof.
  intros Hgames Hg.
  destruct (get_installed_games_from _ _ _ _ _ Hgames Hg) as [m Hm].
  by eapply read_manifest_flags.
Qed.

Lemma catalog_flags_witness :
  has_compatdata game_bar = path_exists steam_fs (compatdata_path game_bar) ∧
  has_shadercache game_bar
    = path_exists steam_fs (shadercache_path game_bar) ∧
  playtime_minutes game_bar = 0.
Proof.
  apply (catalog_flags steam_fs steam_root (Some [("10", 90)])
           [game_bar; game_foo]).
  - vm_compute. reflexivity.
  - apply list_elem_of_here.
Defined.

(** ** Sorting again *)

Lemma insert_by_key_Permutation kg l : insert_by_key kg l ≡ₚ kg :: l.
Proof.
  induction l as [|kg' l IH]; [done|]. simpl.
  destruct (String.leb kg.1 kg'.1); [done|].
  rewrite IH. apply Permutation_swap.
Qed.

Lemma foldr_insert_Permutation keyed :
  foldr insert_by_key [] keyed ≡ₚ keyed.
Proof.
  induction keyed as [|kg keyed IH]; [done|]. simpl.
  by rewrite insert_by_key_Permutation, IH.
Qed.

Lemma sorted_by_name_Permutation games out :
  sorted_by_name games = inr out → out ≡ₚ games.
Proof.
  unfold sorted_by_name.
  destruct (mapM _ games) as [keyed|] eqn:Hkeyed; [|done].
  intros [= <-]. destruct (keyed_spec _ _ Hkeyed) as [<- _].
  by rewrite foldr_insert_Permutation.
Qed.

Lemma sorted_by_name_returns games :
  Forall (λ g, ∃ s, name g = VStr s) games ↔
  ∃ out, sorted_by_name games = inr out.
Proof.
  unfold sorted_by_name. split.
  - intros Hall.
    assert (is_Some (mapM (λ g, k ← sort_key g; Some (k, g)) games))
      as [keyed ->]; [|by eexists].
    induction Hall as [|g games [s Hs] _ [keyed IH]]; [by eexists|].
    rewrite mapM_Some in IH. eexists. apply mapM_Some.
    constructor; [|done]. unfold sort_key. by rewrite Hs.
  - intros [out Hout].
    destruct (mapM _ games) as [keyed|] eqn:Hkeyed; [|done].
    destruct (keyed_spec _ _ Hkeyed) as [_ Hkeys].
    by eapply mapM_sort_key_Forall.
Qed.

(** X18. Sorting by name returns a list exactly when every name is a
    string; a name bound to a mapping in a descriptor makes it raise. The
    list returned holds the same packages as the input, each as often as it
    occurs there. *)
Theorem sorted_by_name_total games :
  (Forall (λ g, ∃ s, name g = VStr s) games ↔
   ∃ out, sorted_by_name games = inr out) ∧
  ∀ out, sorted_by_name games = inr out → out ≡ₚ games.
Proof.
  split; [apply sorted_by_name_returns|apply sorted_by_name_Permutation].
Qed.

Lemma sorted_by_name_total_witness :
  [game_apple; game_bar; game_foo] ≡ₚ [game_foo; game_apple; game_bar].
Proof.
  apply (proj2 (sorted_by_name_total [game_foo; game_apple; game_bar])).
  vm_compute. reflexivity.
Defined.

(** ** The packages of a library *)

Lemma games_loop_omap fs library playtime_data manifests : ∀ acc,
  foldl (λ games manifest,
           match read_manifest fs library playtime_data manifest with
           | Some g => games ++ [g]
           | None => games
           end) acc manifests
  = acc ++ omap (read_manifest fs library playtime_data) manifests.
Proof.
  induction manifests as [|m manifests IH]; intros acc; simpl.
  { by rewrite app_nil_r. }
  rewrite IH. destruct (read_manifest fs library playtime_data m); [|done].
  by rewrite <-(assoc_L (++)).
Qed.

(** X19. When the [steamapps] directory of a library is missing the
    library lists nothing. Otherwise [get_installed_games] returns a list
    exactly when every descriptor that yields a package gives it a string as
    name, and the list then holds each of these packages once for each
    descriptor yielding it, none lost and none added. *)
Theorem get_installed_games_listing fs library playtime_data :
  let steamapps := library </> "steamapps" in
  let read :=
    omap (read_manifest fs library playtime_data)
         (glob_manifests fs steamapps) in
  (path_exists fs steamapps = false →
   get_installed_games fs library playtime_data = inr []) ∧
  (path_exists fs steamapps = true →
   (Forall (λ g, ∃ s, name g = VStr s) read ↔
    ∃ games, get_installed_games fs library playtime_data = inr games) ∧
   ∀ games, get_installed_games fs library playtime_data = inr games →
            games ≡ₚ read).
Proof.
  intros steamapps read. unfold get_installed_games. fold steamapps.
  split; intros ->; [done|]. simpl.
  rewrite games_loop_omap. simpl. fold read.
  split; [apply sorted_by_name_returns|apply sorted_by_name_Permutation].
Qed.

Lemma get_installed_games_listing_witness :
  get_installed_games steam_fs (mkpath "/nowhere") None = inr [] ∧
  [game_apple] ≡ₚ
  omap (read_manifest steam_fs (mkpath "/games") None)
       (glob_manifests steam_fs (mkpath "/games" </> "steamapps")).
Proof.
  split.
  - apply (proj1 (get_installed_games_listing steam_fs (mkpath "/nowhere")
                    None)).
    vm_compute. reflexivity.
  - apply (proj2 (get_installed_games_listing steam_fs (mkpath "/games") None)
             ltac:(vm_compute; reflexivity)).
    vm_compute. reflexivity.
Defined.

(** ** Play time *)

Lemma playtime_update_spec (playtime : playtime_dict) app minutes :
  let updated :=
    match dict_get app playtime with
    | None => dict_set app minutes playtime
    | Some recorded =>
        if recorded <? minutes then dict_set app minutes playtime
        else playtime
    end in
  NoDup playtime.*1 →
  NoDup updated.*1 ∧
  ∀ a m, dict_get a playtime = Some m →
         ∃ m', dict_get a updated = Some m' ∧ m ≤ m'.
Proof.
  intros updated Hnd. subst updated.
  destruct (dict_get app playtime) as [recorded|] eqn:Hrec.
  - destruct (Z.ltb_spec recorded minutes) as [Hlt|Hge].
    + split; [by apply dict_set_NoDup|]. intros a m Ha.
      destruct (decide (app = a)) as [->|Hne].
      * rewrite dict_get_set. exists minutes. split; [done|].
        assert (m = recorded) by congruence. lia.
      * rewrite dict_get_set_ne by done. exists m. split; [done|lia].
    + split; [done|]. intros a m Ha. exists m. split; [done|lia].
  - split; [by apply dict_set_NoDup|]. intros a m Ha.
    destruct (decide (app = a)) as [->|Hne]; [congruence|].
    rewrite dict_get_set_ne by done. exists m. split; [done|lia].
Qed.

Lemma playtime_apps_spec items : ∀ playtime : playtime_dict,
  NoDup playtime.*1 →
  NoDup (playtime_apps items playtime).*1 ∧
  ∀ a m, dict_get a playtime = Some m →
         ∃ m', dict_get a (playtime_apps items playtime) = Some m' ∧ m ≤ m'.
Proof.
  assert (∀ playtime : playtime_dict, NoDup playtime.*1 →
            NoDup playtime.*1 ∧
            ∀ a m, dict_get a playtime = Some m →
                   ∃ m', dict_get a playtime = Some m' ∧ m ≤ m') as Hsame.
  { intros playtime Hnd. split; [done|]. intros a m Ha. exists m.
    split; [done|lia]. }
  induction items as [|[app v] items IH]; intros playtime Hnd; simpl;
    [by apply Hsame|].
  destruct v as [s|d]; [by apply IH|].
  destruct (dict_get "Playtime" d) as [[s|d']|];
    [|by apply Hsame|by apply IH].
  destruct (py_int s) as [minutes|]; [|by apply IH].
  destruct (playtime_update_spec playtime app minutes Hnd) as [Hnd1 Hmono1].
  destruct (IH _ Hnd1) as [Hnd2 Hmono2]. split; [done|].
  intros a m Ha. destruct (Hmono1 a m Ha) as (m1 & Ha1 & Hle1).
  destruct (Hmono2 a m1 Ha1) as (m2 & Ha2 & Hle2).
  exists m2. split; [done|lia].
Qed.

Lemma playtime_user_spec fs (playtime : playtime_dict) user_dir :
  NoDup playtime.*1 →
  NoDup (playtime_user fs playtime user_dir).*1 ∧
  ∀ a m, dict_get a playtime = Some m →
         ∃ m', dict_get a (playtime_user fs playtime user_dir) = Some m'
               ∧ m ≤ m'.
Proof.
  intros Hnd. unfold playtime_user.
  assert (NoDup playtime.*1 ∧
          ∀ a m, dict_get a playtime = Some m →
                 ∃ m', dict_get a playtime = Some m' ∧ m ≤ m') as Hsame.
  { split; [done|]. intros a m Ha. exists m. split; [done|lia]. }
  destruct (negb (is_dir fs user_dir)); [done|].
  destruct (negb (path_exists fs _)); [done|].
  destruct (user_apps fs _) as [e|items]; [done|].
  by apply playtime_apps_spec.
Qed.

(** X20. Reading the configuration of one more user never drops an
    identifier from the play times and never lowers a recorded play time:
    the highest value seen so far stays. The play times keep one entry for
    each identifier, and so does what [get_playtime_data] returns. *)
Theorem playtime_never_lowered fs :
  (∀ (playtime : playtime_dict) user_dir,
     NoDup playtime.*1 →
     NoDup (playtime_user fs playtime user_dir).*1 ∧
     ∀ a m, dict_get a playtime = Some m →
            ∃ m', dict_get a (playtime_user fs playtime user_dir) = Some m'
                  ∧ m ≤ m') ∧
  (∀ steam_root playtime,
     get_playtime_data fs steam_root = inr playtime → NoDup playtime.*1).
Proof.
  split; [apply playtime_user_spec|].
  intros root playtime. unfold get_playtime_data.
  destruct (negb (path_exists fs _)); [intros [= <-]; constructor|].
  destruct (negb (is_dir fs _)); [done|]. intros [= <-].
  generalize (children fs (root </> "userdata")).*1 as dirs.
  assert (NoDup (@nil (string * Z)).*1) as Hnil by constructor.
  revert Hnil. generalize (@nil (string * Z)) as acc.
  intros acc Hacc dirs. revert acc Hacc.
  induction dirs as [|d dirs IH]; intros acc Hacc; simpl; [done|].
  apply IH. by apply playtime_user_spec.
Qed.

Lemma playtime_never_lowered_witness :
  ∃ m', dict_get "10" (playtime_user steam_fs [("10", 50); ("20", 400)]
                         (steam_root </> "userdata/1")) = Some m' ∧ 50 ≤ m'.
Proof.
  apply (proj1 (playtime_never_lowered steam_fs) [("10", 50); ("20", 400)]).
  - apply (bool_decide_unpack _). vm_compute. exact I.
  - reflexivity.
Defined.

(** ** The whole catalog *)

Lemma all_games_loop_concat fs playtime_data libraries : ∀ acc out,
  all_games_loop fs playtime_data libraries acc = inr out →
  ∃ per_library,
    Forall2 (λ library games,
               get_installed_games fs library (Some playtime_data)
               = inr games) libraries per_library ∧
    out = acc ++ concat per_library.
Proof.
  induction libraries as [|library libraries IH]; intros acc out; simpl.
  { intros [= <-]. exists []. split; [constructor|by rewrite app_nil_r]. }
  destruct (get_installed_games fs library (Some playtime_data))
    as [e|games] eqn:Hgames; [done|]. simpl.
  intros (per & Hper & ->)%IH. exists (games :: per).
  split; [by constructor|]. simpl. by rewrite <-(assoc_L (++)).
Qed.

(** X21. When no installation is found the catalog is empty. Otherwise
    the catalog, when it is returned, holds the packages of the library
    folders of the installation, each library read with the play times of
    the installation: every package of every library listing, as often as the
    listings hold it, and nothing else. *)
Theorem catalog_union home fs games :
  get_all_installed_games home fs = inr games →
  match find_steam_root home fs with
  | None => games = []
  | Some steam_root =>
      ∃ libraries playtime_data per_library,
        get_library_folders fs steam_root = inr libraries ∧
        get_playtime_data fs steam_root = inr playtime_data ∧
        Forall2 (λ library listed,
                   get_installed_games fs library (Some playtime_data)
                   = inr listed) libraries per_library ∧
        games ≡ₚ concat per_library
  end.
Proof.
  unfold get_all_installed_games.
  destruct (find_steam_root home fs) as [root|]; [|by intros [= <-]].
  destruct (get_library_folders fs root) as [e|libraries]; [done|].
  destruct (get_playtime_data fs root) as [e|playtime_data]; [done|]. simpl.
  destruct (all_games_loop fs playtime_data libraries [])
    as [e|all_games] eqn:Hloop; [done|]. simpl.
  intros Hsorted%sorted_by_name_Permutation.
  apply all_games_loop_concat in Hloop as (per & Hper & ->).
  by exists libraries, playtime_data, per.
Qed.

Lemma catalog_union_witness :
  ∃ libraries playtime_data per_library,
    get_library_folders steam_fs steam_root = inr libraries ∧
    get_playtime_data steam_fs steam_root = inr playtime_data ∧
    Forall2 (λ library listed,
               get_installed_games steam_fs library (Some playtime_data)
               = inr listed) libraries per_library ∧
    [game_apple; game_bar; game_foo] ≡ₚ concat per_library.
Proof.
  apply (catalog_union steam_home steam_fs [game_apple; game_bar; game_foo]).
  vm_compute. reflexivity.
Defined.

(** ** Selecting games *)

(** X22. Toggling a row twice gives the selection back; toggling once
    changes whether that identifier is selected and nothing else. *)
Theorem toggle_involutive app selected :
  toggle app (toggle app selected) = selected ∧
  (app ∈ toggle app selected ↔ app ∉ selected) ∧
  ∀ other, other ≠ app → (other ∈ toggle app selected ↔ other ∈ selected).
Proof.
  assert (∀ x, x ∈ toggle app selected ↔
               (x = app ∧ app ∉ selected) ∨ (x ≠ app ∧ x ∈ selected))
    as Htoggle.
  { intros x. unfold toggle. destruct (decide (app ∈ selected)) as [Hin|Hout].
    - rewrite elem_of_difference, elem_of_singleton.
      destruct (decide (x = app)) as [->|?]; tauto.
    - rewrite elem_of_union, elem_of_singleton.
      destruct (decide (x = app)) as [->|?]; tauto. }
  split_and!.
  - apply set_eq. intros x. unfold toggle at 1.
    destruct (decide (app ∈ toggle app selected)) as [Hin|Hout].
    + rewrite elem_of_difference, elem_of_singleton, Htoggle.
      apply Htoggle in Hin. destruct (decide (x = app)) as [->|?]; tauto.
    + rewrite elem_of_union, elem_of_singleton, Htoggle.
      rewrite Htoggle in Hout.
      destruct (decide (x = app)) as [->|?],
        (decide (app ∈ selected)); tauto.
  - rewrite Htoggle. destruct (decide (app ∈ selected)); tauto.
  - intros other Hne. rewrite Htoggle. tauto.
Qed.

Lemma toggle_involutive_witness :
  "20" ∈ toggle "10" {["20"]} ↔ "20" ∈ ({["20"]} : gset string).
Proof. apply (toggle_involutive "10" {["20"]}). discriminate. Defined.

Lemma elem_of_select_all filtered : ∀ selected a,
  a ∈ select_all filtered selected ↔
  a ∈ selected ∨ a ∈ appid <$> filtered.
Proof.
  unfold select_all.
  induction filtered as [|g filtered IH]; intros selected a.
  { simpl. rewrite elem_of_nil. tauto. }
  rewrite fmap_cons. cbn [foldl].
  rewrite IH, elem_of_cons, elem_of_union, elem_of_singleton.
  tauto.
Qed.

(** X23. The games handed on for uninstalling are the games of the list
    whose identifier is selected, in the order of the list. After selecting
    all the games shown they hold every game shown that is in the list, and
    all of the list when all of it is shown; with nothing selected there are
    none. *)
Theorem selected_games_spec games selected :
  selected_games games selected `sublist_of` games ∧
  (∀ g, g ∈ selected_games games selected ↔
        g ∈ games ∧ appid g ∈ selected) ∧
  (∀ filtered g, g ∈ filtered → g ∈ games →
                 g ∈ selected_games games (select_all filtered selected)) ∧
  selected_games games (select_all games selected) = games ∧
  selected_games games ∅ = [].
Proof.
  unfold selected_games. split_and!.
  - apply sublist_filter.
  - intros g. rewrite list_elem_of_filter. tauto.
  - intros filtered g Hf Hg. apply list_elem_of_filter. split; [|done].
    apply elem_of_select_all. right. by apply list_elem_of_fmap_2.
  - assert (∀ l, l ⊆ games →
              filter (λ g, appid g ∈ select_all games selected) l = l) as H.
    { induction l as [|g l IH]; intros Hl; [done|].
      rewrite filter_cons_True, IH; [done| |].
      - intros x Hx. apply Hl. by apply list_elem_of_further.
      - apply elem_of_select_all. right. apply list_elem_of_fmap_2, Hl.
        apply list_elem_of_here. }
    by apply H.
  - induction games as [|g games IH]; [done|].
    rewrite filter_cons, decide_False by apply not_elem_of_empty. done.
Qed.

Lemma selected_games_spec_witness :
  game_bar ∈ selected_games [game_apple; game_bar; game_foo]
               (select_all [game_bar] ∅).
Proof.
  apply (proj1 (proj2 (proj2 (selected_games_spec
                                [game_apple; game_bar; game_foo] ∅)))
           [game_bar]).
  - apply list_elem_of_here.
  - apply list_elem_of_further, list_elem_of_here.
Defined.

Lemma lower_ascii_idemp c : lower_ascii (lower_ascii c) = lower_ascii c.
Proof. by destruct c as [[] [] [] [] [] [] [] []]. Qed.

Lemma lower_idemp s : lower (lower s) = lower s.
Proof.
  induction s as [|c s IH]; [done|]. simpl. by rewrite lower_ascii_idemp, IH.
Qed.

(** X24. The filter of the game list ignores the case of what is typed:
    a text and its lowered form show the same games. What is shown, when
    the names are strings, is the games of the list whose lowered name holds
    the lowered text, in the order of the list; an empty text shows the whole
    list. *)
Theorem filter_games_spec games value :
  filter_games games value = filter_games games (lower value) ∧
  filter_games games EmptyString = inr games ∧
  ∀ shown, filter_games games value = inr shown →
    shown `sublist_of` games ∧
    (lower value ≠ EmptyString →
     ∀ g, g ∈ shown ↔
          g ∈ games ∧ ∃ s, name g = VStr s ∧
                           contains (lower value) (lower s) = true).
Proof.
  unfold filter_games. split_and!.
  - by rewrite lower_idemp.
  - done.
  - intros shown. case_bool_decide as Hempty.
    { intros [= <-]. split; [done|]. by intros []. }
    destruct (mapM _ games) as [keyed|] eqn:Hkeyed; [|done].
    intros [= <-]. destruct (keyed_spec _ _ Hkeyed) as [Hgames _].
    pose proof (keyed_Forall _ _ Hkeyed) as Hkeys.
    split.
    + rewrite <-Hgames. apply fmap_sublist, sublist_filter.
    + intros _ g. rewrite <-Hgames, !list_elem_of_fmap. split.
      * intros ([k g'] & -> & [Hc Hin]%list_elem_of_filter). simpl in *.
        split; [by exists (k, g')|].
        eapply Forall_forall in Hkeys; [|done]. simpl in Hkeys.
        unfold sort_key in Hkeys. destruct (name g') as [s|]; [|done].
        exists s. split; [done|]. by simplify_eq.
      * intros [([k g'] & -> & Hin) (s & Hs & Hc)]. simpl in *.
        exists (k, g'). split; [done|]. apply list_elem_of_filter.
        split; [|done]. simpl.
        eapply Forall_forall in Hkeys; [|done]. simpl in Hkeys.
        unfold sort_key in Hkeys. rewrite Hs in Hkeys. by simplify_eq.
Qed.

Lemma filter_games_spec_witness :
  [game_bar] `sublist_of` [game_apple; game_bar; game_foo].
Proof.
  apply (proj2 (proj2 (filter_games_spec [game_apple; game_bar; game_foo]
                         "BA")) [game_bar]).
  vm_compute. reflexivity.
Defined.

(** ** When a dry run fails *)

Lemma measure_fails fs p e :
  measure fs p = inl e ↔ is_file fs p = true ∧ stat_size fs p = inl e.
Proof.
  unfold measure. destruct (is_file fs p); split; try done.
  - by intros [_ ?].
  - by intros [? _].
Qed.

Lemma is_file_exists fs p : is_file fs p = true → path_exists fs p = true.
Proof.
  unfold is_file, path_exists. destruct (fs !! p) as [n|]; [|done].
  intros _. apply bool_decide_eq_true. by exists n.
Qed.

Lemma delete_paths_dry_raises paths : ∀ fs bytes,
  is_Some (delete_paths true fs bytes paths).2 ↔
  ∃ p e, p ∈ paths.*1 ∧ is_file fs p = true ∧ stat_size fs p = inl e.
Proof.
  induction paths as [|[p desc] paths IH]; intros fs bytes.
  { simpl. split; [by intros [? ?]|]. by intros (? & ? & ?%elem_of_nil & _). }
  rewrite fmap_cons. cbn [delete_paths fst]. unfold delete_path.
  assert ((∃ p' e, p' ∈ p :: paths.*1 ∧ is_file fs p' = true ∧
                   stat_size fs p' = inl e) ↔
          (∃ e, is_file fs p = true ∧ stat_size fs p = inl e) ∨
          (∃ p' e, p' ∈ paths.*1 ∧ is_file fs p' = true ∧
                   stat_size fs p' = inl e)) as ->.
  { split.
    - intros (p' & e & [->|Hin]%elem_of_cons & Hf & Hs); [left|right]; eauto.
    - intros [(e & Hf & Hs)|(p' & e & Hin & Hf & Hs)].
      + exists p, e. split; [apply list_elem_of_here|done].
      + exists p', e. split; [by apply list_elem_of_further|done]. }
  destruct (path_exists fs p) eqn:Hex; cbn [negb].
  - destruct (measure fs p) as [e|size] eqn:Hmeas.
    + apply measure_fails in Hmeas. simpl. split; [|by eexists].
      intros _. left. by exists e.
    + rewrite IH. split; [by right|]. intros [(e & Hf & Hs)|?]; [|done].
      assert (measure fs p = inl e) by (by apply measure_fails). congruence.
  - rewrite IH. split; [by right|]. intros [(e & Hf & Hs)|?]; [|done].
    apply is_file_exists in Hf. congruence.
Qed.


(** ** When the library folders are returned *)

Lemma library_loop_returns fs items : ∀ libraries,
  (∃ out, library_loop fs items libraries = inr out) ↔
  Forall (λ kv, ∀ d d', kv.2 = VDict d → dict_get "path" d ≠ Some (VDict d'))
         items.
Proof.
  induction items as [|[key v] items IH]; intros libraries; simpl.
  { split; [constructor|by eexists]. }
  rewrite Forall_cons. simpl. destruct v as [s|d].
  { rewrite IH. split; [|by intros [_ ?]]. by split. }
  destruct (dict_get "path" d) as [[s|d']|] eqn:Hpath.
  - rewrite IH. split; [|by intros [_ ?]]. split; [|done].
    intros d1 d2 [= <-]. by rewrite Hpath.
  - split; [by intros [? ?]|]. intros [H _]. by destruct (H d d').
  - rewrite IH. split; [|by intros [_ ?]]. split; [|done].
    intros d1 d2 [= <-]. by rewrite Hpath.
Qed.


